(** * ChordMap: chord parsing, prefix tree and live chord tracker

    A shallow embedding of the algorithmic core of the ChordMap extension
    ([src/parser.ts], [src/prefixGraph.ts], [src/liveTracker.ts],
    [src/types.ts], and the binding views of [src/searchIndex.ts],
    [src/settingsManager.ts] and [src/treeView.ts]) and the properties its
    specification states about it.

    Strings.  A JavaScript string is a sequence of UTF-16 code units.  The
    embedding uses [string], whose characters are the code units below 256
    (the Latin-1 range); on that range [toLowerCase], [trim] and the
    regular-expression classes [\s] and [\w] are written out below exactly.

    Maps.  A JavaScript [Map] iterates in insertion order, and the tree
    traversals depend on that order, so a [Map<string, V>] is an
    association list: [Map.get] returns the first entry with the key,
    [Map.set] overwrites it in place or appends a new entry. *)

From Stdlib Require Import List Bool Arith PeanoNat Lia Permutation.
From Stdlib Require Import Strings.String Strings.Ascii.
From Stdlib Require Import Structures.OrderedTypeEx.
Import ListNotations.

Local Open Scope string_scope.
Local Open Scope list_scope.
Local Open Scope nat_scope.

(** ** JavaScript string primitives *)

Module JS.

(** [String.prototype.toLowerCase] on one code unit below 256:
    [A-Z] and the Latin-1 capitals U+00C0..U+00DE (U+00D7 excepted)
    move up by 32, everything else is kept. *)
Definition lowerChar (c : ascii) : ascii :=
  let n := nat_of_ascii c in
  if ((65 <=? n) && (n <=? 90))
     || ((192 <=? n) && (n <=? 222) && negb (n =? 215))
  then ascii_of_nat (n + 32)
  else c.

Fixpoint toLowerCase (s : string) : string :=
  match s with
  | EmptyString => EmptyString
  | String c s' => String (lowerChar c) (toLowerCase s')
  end.

(** White space as [trim] and the class [\s] see it, below 256:
    TAB, LF, VT, FF, CR, SPACE and NO-BREAK SPACE. *)
Definition isSpace (c : ascii) : bool :=
  let n := nat_of_ascii c in
  ((9 <=? n) && (n <=? 13)) || (n =? 32) || (n =? 160).

(** The class [\w]: [A-Za-z0-9_]. *)
Definition isWord (c : ascii) : bool :=
  let n := nat_of_ascii c in
  ((65 <=? n) && (n <=? 90)) || ((97 <=? n) && (n <=? 122))
  || ((48 <=? n) && (n <=? 57)) || (n =? 95).

Fixpoint trimStart (s : string) : string :=
  match s with
  | EmptyString => EmptyString
  | String c s' => if isSpace c then trimStart s' else s
  end.

(** [trimEnd]: a character is dropped when it is white space and
    everything after it has been dropped. *)
Fixpoint trimEnd (s : string) : string :=
  match s with
  | EmptyString => EmptyString
  | String c s' =>
      match trimEnd s' with
      | EmptyString => if isSpace c then EmptyString else String c EmptyString
      | t => String c t
      end
  end.

Definition trim (s : string) : string := trimEnd (trimStart s).

(** [s.split(sep)] for a one-character separator: the pieces between
    the occurrences of [sep]; never the empty list. *)
Fixpoint split (sep : ascii) (s : string) : list string :=
  match s with
  | EmptyString => [EmptyString]
  | String c s' =>
      if Ascii.eqb c sep then EmptyString :: split sep s'
      else match split sep s' with
           | [] => [String c EmptyString]
           | p :: ps => String c p :: ps
           end
  end.

(** [s.split(/\s+/)]: the pieces between the maximal runs of white
    space.  [afterSpace] says that the previous character belonged to a
    run, which a further white-space character only extends.  As with
    every [split] whose separator cannot match the empty string, the
    empty string yields the one-element list of the empty string. *)
Fixpoint splitSpacesFrom (afterSpace : bool) (s : string) : list string :=
  match s with
  | EmptyString => [EmptyString]
  | String c s' =>
      if isSpace c then
        if afterSpace then splitSpacesFrom true s'
        else EmptyString :: splitSpacesFrom true s'
      else match splitSpacesFrom false s' with
           | [] => [String c EmptyString]
           | p :: ps => String c p :: ps
           end
  end.

Definition splitSpaces (s : string) : list string := splitSpacesFrom false s.

(** [arr.join(sep)]. *)
Fixpoint join (sep : string) (l : list string) : string :=
  match l with
  | [] => EmptyString
  | [x] => x
  | x :: rest => (x ++ sep ++ join sep rest)%string
  end.

(** [s.startsWith(p)]. *)
Fixpoint startsWith (p s : string) : bool :=
  match p with
  | EmptyString => true
  | String a p' =>
      match s with
      | EmptyString => false
      | String b s' => Ascii.eqb a b && startsWith p' s'
      end
  end.

(** [arr.sort()] with the default comparator: ascending by code units.
    Strings that compare equal are identical, so the result does not
    depend on the sorting algorithm; insertion sort is used. *)
Fixpoint insertSorted (x : string) (l : list string) : list string :=
  match l with
  | [] => [x]
  | y :: l' => if String.leb x y then x :: l else y :: insertSorted x l'
  end.

Fixpoint sort (l : list string) : list string :=
  match l with
  | [] => []
  | x :: l' => insertSorted x (sort l')
  end.

(** Truthiness of a string: [!s] holds exactly for the empty string. *)
Definition truthy (s : string) : bool := negb (String.eqb s EmptyString).

(** [s.slice(start)] for a start index that is not negative. *)
Fixpoint slice (start : nat) (s : string) : string :=
  match start, s with
  | S n, String _ s' => slice n s'
  | _, _ => s
  end.

(** [s.includes(c)] for one character. *)
Fixpoint includes (c : ascii) (s : string) : bool :=
  match s with
  | EmptyString => false
  | String a s' => Ascii.eqb a c || includes c s'
  end.

End JS.

(** ** Data model ([src/types.ts]) *)

Module KeyChord.
Record t : Type := mk {
  modifiers : list string;
  key : string;
  raw : string
}.
End KeyChord.

Module ParsedKeybinding.
Record t : Type := mk {
  key : string;
  command : string;
  when : option string;
  disabled : bool;
  sourceEditor : string;
  commandLabel : option string;
  category : option string;
  isMultiChord : bool;
  conflictsWith : option (list string)
}.
End ParsedKeybinding.

(** ** The keybinding parser ([src/parser.ts]) *)

Module KeybindingParser.

(** [modifierSet.has(part)] *)
Definition knownModifiers : list string :=
  ["cmd"; "ctrl"; "shift"; "alt"; "option"; "meta"].

Definition modifierSet_has (part : string) : bool :=
  existsb (String.eqb part) knownModifiers.

(** The [for] loop of [parseChord]: [i] is the index of the head of
    [parts], [len] is [parts.length] of the whole array, and the pair
    carries the local variables [modifiers] and [key]. *)
Fixpoint parseChord_loop (len i : nat) (parts : list string)
                         (modifiers : list string) (key : string)
  : list string * string :=
  match parts with
  | [] => (modifiers, key)
  | part :: rest =>
      if modifierSet_has part && (i <? len - 1)
      then parseChord_loop len (S i) rest (modifiers ++ [part]) key
      else parseChord_loop len (S i) rest modifiers part
  end.

Definition parseChord (chord : string) : KeyChord.t :=
  let parts := JS.split "+" (JS.toLowerCase chord) in
  let '(modifiers, key) := parseChord_loop (List.length parts) 0 parts [] "" in
  KeyChord.mk modifiers key chord.

Definition parseKeySequence (keySequence : string) : list KeyChord.t :=
  let chordStrings := JS.splitSpaces (JS.trim keySequence) in
  map parseChord chordStrings.

(** A field of a raw record, as far as [parseBinding] and the loop of
    [parseKeybindingsFile] tell values apart: [Absent] is a value that is
    falsy and not a string ([undefined], [null], [false], [0]), [Text] a
    string, [Other] a value that is truthy and not a string (a number, [true],
    an array, an object). *)
Inductive RawField : Type :=
  | Absent
  | Text (s : string)
  | Other.

Definition fieldTruthy (f : RawField) : bool :=
  match f with
  | Absent => false
  | Text s => JS.truthy s
  | Other => true
  end.

(** An element of the parsed JSON array: [NotAnObject] is [null] or a
    primitive value; [Obj] is an object (or an array, on which [key] and
    [command] are absent) with its fields [key], [command] and [when],
    the last one a string when it is present. *)
Inductive RawBinding : Type :=
  | NotAnObject
  | Obj (key command : RawField) (when : option string).

(** [categoryMap], the own properties of the object literal. *)
Definition categoryMap : list (string * string) :=
  [("git", "Git"); ("workbench", "Workbench"); ("editor", "Editor");
   ("terminal", "Terminal"); ("debug", "Debug"); ("explorer", "Explorer");
   ("search", "Search"); ("scm", "Source Control");
   ("extensions", "Extensions"); ("notebook", "Notebook");
   ("testing", "Testing"); ("task", "Tasks"); ("file", "Files");
   ("view", "Views"); ("list", "Lists"); ("problems", "Problems");
   ("output", "Output"); ("markdown", "Markdown");
   ("references", "References"); ("rename", "Refactoring");
   ("go", "Navigation"); ("window", "Window")].

(** The properties every object literal inherits from
    [Object.prototype]. *)
Definition objectPrototypeMembers : list string :=
  ["constructor"; "__defineGetter__"; "__defineSetter__"; "hasOwnProperty";
   "__lookupGetter__"; "__lookupSetter__"; "isPrototypeOf";
   "propertyIsEnumerable"; "toString"; "valueOf"; "__proto__";
   "toLocaleString"].

(** [deriveCategory]: [categoryMap[prefix] || 'Other'].  The result is
    [None] when [prefix] names an inherited member: the lookup then
    yields that member, which is truthy and not a string, and that value
    is what the field [category] of the record holds. *)
Definition deriveCategory (command : string) : option string :=
  let prefix := hd EmptyString (JS.split "." command) in
  match find (fun kv => String.eqb prefix (fst kv)) categoryMap with
  | Some kv => Some (snd kv)
  | None =>
      if existsb (String.eqb prefix) objectPrototypeMembers then None
      else Some "Other"
  end.

(** The ways a call of [parseBinding] ends: it returns [null], it
    throws a [TypeError] (a method of strings called on a value that is
    not a string), or it returns a record. *)
Inductive ParseOutcome : Type :=
  | Null
  | Throws
  | Parsed (b : ParsedKeybinding.t).

Definition parseBinding (raw : RawBinding) (sourceEditor : string)
  : ParseOutcome :=
  match raw with
  | NotAnObject => Null
  | Obj key command when =>
      if negb (fieldTruthy key) || negb (fieldTruthy command) then Null
      else
        match command with
        | Text command =>
            let disabled := JS.startsWith "-" command in
            let actualCommand :=
              if disabled then JS.slice 1 command else command in
            match key with
            | Text key =>
                let chords := parseKeySequence key in
                let isMultiChord := 1 <? List.length chords in
                let category := deriveCategory actualCommand in
                Parsed (ParsedKeybinding.mk key actualCommand when disabled
                          sourceEditor None category isMultiChord (Some []))
            | _ => Throws
            end
        | _ => Throws
        end
  end.

(** The loop of [parseKeybindingsFile] over the array that [jsonc.parse]
    returned: a record is pushed when [parseBinding] returns one, and
    skipped when it returns [null] or throws (the [catch] only logs). *)
Definition parseKeybindingsFile_loop (rawBindings : list RawBinding)
                                     (sourceEditor : string)
  : list ParsedKeybinding.t :=
  fold_left
    (fun parsed binding =>
       match parseBinding binding sourceEditor with
       | Parsed result => parsed ++ [result]
       | Null | Throws => parsed
       end)
    rawBindings [].

End KeybindingParser.

Import KeybindingParser.

(** ** Insertion-ordered maps with string keys (JavaScript [Map]) *)

Module JSMap.
Section Ops.
Context {V : Type}.

Definition t : Type := list (string * V).

Fixpoint get (k : string) (m : t) : option V :=
  match m with
  | [] => None
  | (k', v) :: m' => if String.eqb k k' then Some v else get k m'
  end.

(** An existing key keeps its place in the iteration order; a new key
    goes to the end. *)
Fixpoint set (k : string) (v : V) (m : t) : t :=
  match m with
  | [] => [(k, v)]
  | (k', v') :: m' =>
      if String.eqb k k' then (k', v) :: m' else (k', v') :: set k v m'
  end.

Definition keys (m : t) : list string := map fst m.
Definition values (m : t) : list V := map snd m.
End Ops.
Arguments t : clear implicits.
End JSMap.

(** ** Prefix tree nodes ([PrefixNode] of [src/types.ts]) *)

Module PrefixNode.
Local Unset Elimination Schemes.
Inductive t : Type :=
  mk (chord : string)
     (children : list (string * t))
     (bindings : list ParsedKeybinding.t)
     (fullPath : list string).
Local Set Elimination Schemes.

Definition chord (n : t) : string := let 'mk c _ _ _ := n in c.
Definition children (n : t) : JSMap.t t := let 'mk _ ch _ _ := n in ch.
Definition bindings (n : t) : list ParsedKeybinding.t :=
  let 'mk _ _ bs _ := n in bs.
Definition fullPath (n : t) : list string := let 'mk _ _ _ p := n in p.
End PrefixNode.

(** ** The prefix graph builder ([src/prefixGraph.ts])

    The source builds the tree by mutating nodes reached through the
    maps.  Every node is created by [createNode] and stored under exactly
    one parent, so nothing is aliased, and a mutation of a node is the
    replacement of its entry in the parent's map, at the same position. *)

Module PrefixGraphBuilder.

Definition createNode (chord : string) (fullPath : list string)
  : PrefixNode.t :=
  PrefixNode.mk chord [] [] fullPath.

Definition normalizeChordKey (chord : string) : string :=
  let parsed := parseChord chord in
  let sortedModifiers := JS.sort (KeyChord.modifiers parsed) in
  if 0 <? List.length sortedModifiers
  then JS.join "+" (sortedModifiers ++ [KeyChord.key parsed])
  else KeyChord.key parsed.

(** [currentNode.bindings.push(binding)]; the guard
    [if (!currentNode.bindings)] before it never fires, [createNode]
    always sets the field. *)
Definition pushBinding (node : PrefixNode.t) (binding : ParsedKeybinding.t)
  : PrefixNode.t :=
  PrefixNode.mk (PrefixNode.chord node) (PrefixNode.children node)
                (PrefixNode.bindings node ++ [binding])
                (PrefixNode.fullPath node).

Definition withChildren (node : PrefixNode.t)
                        (children : JSMap.t PrefixNode.t) : PrefixNode.t :=
  PrefixNode.mk (PrefixNode.chord node) children
                (PrefixNode.bindings node) (PrefixNode.fullPath node).

(** The loop [for (let i = 1; i < chords.length; i++)] followed by the
    push at the node it ends on: [chords] are the chords from index [i]
    on, [fullPath] is the local array, and the result is [currentNode]
    after all the mutations below it. *)
Fixpoint descend (chords : list KeyChord.t) (fullPath : list string)
                 (binding : ParsedKeybinding.t) (currentNode : PrefixNode.t)
  : PrefixNode.t :=
  match chords with
  | [] => pushBinding currentNode binding
  | chord :: rest =>
      let chordKey := normalizeChordKey (KeyChord.raw chord) in
      let fullPath := fullPath ++ [KeyChord.raw chord] in
      let childNode :=
        match JSMap.get chordKey (PrefixNode.children currentNode) with
        | Some n => n
        | None => createNode (KeyChord.raw chord) fullPath
        end in
      withChildren currentNode
        (JSMap.set chordKey (descend rest fullPath binding childNode)
                   (PrefixNode.children currentNode))
  end.

(** One iteration of [for (const binding of bindings)]. *)
Definition addBinding (roots : JSMap.t PrefixNode.t)
                      (binding : ParsedKeybinding.t)
  : JSMap.t PrefixNode.t :=
  if negb (JS.truthy (ParsedKeybinding.key binding)) then roots
  else
    match parseKeySequence (ParsedKeybinding.key binding) with
    | [] => roots
    | chord0 :: rest =>
        let firstChordKey := normalizeChordKey (KeyChord.raw chord0) in
        let currentNode :=
          match JSMap.get firstChordKey roots with
          | Some n => n
          | None => createNode (KeyChord.raw chord0) [KeyChord.raw chord0]
          end in
        JSMap.set firstChordKey
          (descend rest [KeyChord.raw chord0] binding currentNode) roots
    end.

Definition buildPrefixTree (bindings : list ParsedKeybinding.t)
  : JSMap.t PrefixNode.t :=
  fold_left addBinding bindings [].

(** [getLeafNodes]: the local array [leaves] is threaded through. *)
Fixpoint getLeafNodes_traverse (node : PrefixNode.t)
                               (leaves : list PrefixNode.t)
  : list PrefixNode.t :=
  match node with
  | PrefixNode.mk _ children bindings _ =>
      let leaves :=
        if 0 <? List.length bindings then leaves ++ [node] else leaves in
      fold_left (fun acc kv => getLeafNodes_traverse (snd kv) acc)
                children leaves
  end.

Definition getLeafNodes (roots : JSMap.t PrefixNode.t)
  : list PrefixNode.t :=
  fold_left (fun acc root => getLeafNodes_traverse root acc)
            (JSMap.values roots) [].

(** [getNodesAtDepth], for a depth that is a natural number: the local
    array [nodes] is threaded through, and a node at the wanted depth is
    pushed without a visit of its children. *)
Fixpoint getNodesAtDepth_traverse (depth : nat) (node : PrefixNode.t)
                                  (currentDepth : nat)
                                  (nodes : list PrefixNode.t)
  : list PrefixNode.t :=
  match node with
  | PrefixNode.mk _ children _ _ =>
      if currentDepth =? depth then nodes ++ [node]
      else fold_left
             (fun acc kv =>
                getNodesAtDepth_traverse depth (snd kv) (currentDepth + 1) acc)
             children nodes
  end.

Definition getNodesAtDepth (roots : JSMap.t PrefixNode.t) (depth : nat)
  : list PrefixNode.t :=
  if depth =? 0 then JSMap.values roots
  else fold_left (fun acc root => getNodesAtDepth_traverse depth root 0 acc)
                 (JSMap.values roots) [].

(** [findNode]: the loop over the chords after the first. *)
Fixpoint findNode_loop (chords : list KeyChord.t)
                       (currentNode : PrefixNode.t) : option PrefixNode.t :=
  match chords with
  | [] => Some currentNode
  | chord :: rest =>
      match JSMap.get (normalizeChordKey (KeyChord.raw chord))
                      (PrefixNode.children currentNode) with
      | None => None
      | Some n => findNode_loop rest n
      end
  end.

Definition findNode (roots : JSMap.t PrefixNode.t) (keySequence : string)
  : option PrefixNode.t :=
  match parseKeySequence keySequence with
  | [] => None
  | chord0 :: rest =>
      match JSMap.get (normalizeChordKey (KeyChord.raw chord0)) roots with
      | None => None
      | Some n => findNode_loop rest n
      end
  end.

(** [getTreeStats]: the four local counters are the state of the
    traversal. *)
Record Stats : Type := mkStats {
  totalNodes : nat;
  maxDepth : nat;
  multiChordCount : nat;
  singleChordCount : nat
}.

Definition visit (bindings : list ParsedKeybinding.t) (depth : nat)
                 (s : Stats) : Stats :=
  let total := totalNodes s + 1 in
  let deepest := Nat.max (maxDepth s) depth in
  if 0 <? List.length bindings then
    if depth =? 0
    then mkStats total deepest (multiChordCount s)
                 (singleChordCount s + List.length bindings)
    else mkStats total deepest (multiChordCount s + List.length bindings)
                 (singleChordCount s)
  else mkStats total deepest (multiChordCount s) (singleChordCount s).

Fixpoint getTreeStats_traverse (node : PrefixNode.t) (depth : nat)
                               (s : Stats) : Stats :=
  match node with
  | PrefixNode.mk _ children bindings _ =>
      fold_left (fun acc kv => getTreeStats_traverse (snd kv) (depth + 1) acc)
                children (visit bindings depth s)
  end.

Definition getTreeStats (roots : JSMap.t PrefixNode.t) : Stats :=
  fold_left (fun acc root => getTreeStats_traverse root 0 acc)
            (JSMap.values roots) (mkStats 0 0 0 0).

(** [flattenTree]: the local array [bindings] is threaded through. *)
Fixpoint flattenTree_traverse (node : PrefixNode.t)
                              (acc : list ParsedKeybinding.t)
  : list ParsedKeybinding.t :=
  match node with
  | PrefixNode.mk _ children bindings _ =>
      fold_left (fun acc kv => flattenTree_traverse (snd kv) acc)
                children (acc ++ bindings)
  end.

Definition flattenTree (roots : JSMap.t PrefixNode.t)
  : list ParsedKeybinding.t :=
  fold_left (fun acc root => flattenTree_traverse root acc)
            (JSMap.values roots) [].

End PrefixGraphBuilder.

Import PrefixGraphBuilder.

(** ** The live chord tracker ([src/liveTracker.ts])

    The tracker object is a record of its fields.  Two pieces of the
    environment are part of the state as well: the timeouts scheduled by
    [setTimeout] that have neither fired nor been cleared
    ([pendingTimers], each known by its handle), and the values fired on
    [onChordChangeEmitter], oldest first ([emitted], each recorded as the
    array read at the moment of the call). *)

Module LiveChordTracker.

Record t : Type := mk {
  isActive : bool;
  currentChordSequence : list string;
  resetTimer : option nat;
  pendingTimers : list nat;
  nextTimer : nat;
  emitted : list (list string)
}.

(** The fields as the class initialises them. *)
Definition create : t := mk false [] None [] 0 [].

(** [clearTimeout(h)] *)
Definition clearTimeout (h : nat) (timers : list nat) : list nat :=
  filter (fun x => negb (x =? h)) timers.

(** [resolveWebviewView], as far as the tracker's fields go. *)
Definition resolveWebviewView (s : t) : t :=
  if negb (isActive s)
  then mk true (currentChordSequence s) (resetTimer s) (pendingTimers s)
          (nextTimer s) (emitted s)
  else s.

Definition activate (s : t) : t :=
  mk true [] (resetTimer s) (pendingTimers s) (nextTimer s) (emitted s).

Definition deactivate (s : t) : t :=
  let timers :=
    match resetTimer s with
    | Some h => clearTimeout h (pendingTimers s)
    | None => pendingTimers s
    end in
  mk false [] None timers (nextTimer s) (emitted s ++ [[]]).

Definition toggle (s : t) : t :=
  if isActive s then deactivate s else activate s.

(** The webview message [{type: 'reset'}]. *)
Definition onResetMessage (s : t) : t :=
  mk (isActive s) [] (resetTimer s) (pendingTimers s) (nextTimer s)
     (emitted s ++ [[]]).

Definition handleKeyPress (chord : string) (s : t) : t :=
  if negb (JS.truthy chord) then s
  else
    let sequence := currentChordSequence s ++ [chord] in
    let timers :=
      match resetTimer s with
      | Some h => clearTimeout h (pendingTimers s)
      | None => pendingTimers s
      end in
    mk (isActive s) sequence (Some (nextTimer s))
       (timers ++ [nextTimer s]) (S (nextTimer s))
       (emitted s ++ [sequence]).

(** The webview message [{type: 'keypress', chord}]. *)
Definition onKeypressMessage (chord : string) (s : t) : t :=
  handleKeyPress chord s.

Definition resetSequence (s : t) : t :=
  if negb (isActive s) then s
  else mk (isActive s) [] (resetTimer s) (pendingTimers s) (nextTimer s)
          (emitted s).

(** The event loop runs the callback of the timeout [h], if that
    timeout is still pending; the field [resetTimer] keeps the handle. *)
Definition timerFires (h : nat) (s : t) : t :=
  if existsb (Nat.eqb h) (pendingTimers s)
  then resetSequence
         (mk (isActive s) (currentChordSequence s) (resetTimer s)
             (clearTimeout h (pendingTimers s)) (nextTimer s) (emitted s))
  else s.

Definition getCurrentSequence (s : t) : list string :=
  currentChordSequence s.

Definition isLiveMode (s : t) : bool := isActive s.

(** [chord.replace(/\bopt\b/g, 'option')].  [prevIsWord] says whether
    the character before the current position is a word character;
    [opt] matches where it is not, and where the character after the
    [t] is not a word character either.  The search resumes after the
    match, and then the previous character is the [t]. *)
Definition headIsWord (s : string) : bool :=
  match s with
  | EmptyString => false
  | String c _ => JS.isWord c
  end.

Fixpoint replaceOpt_from (prevIsWord : bool) (s : string) : string :=
  match s with
  | EmptyString => EmptyString
  | String c s' =>
      match s' with
      | String c2 (String c3 rest) =>
          if negb prevIsWord
             && Ascii.eqb c "o" && Ascii.eqb c2 "p" && Ascii.eqb c3 "t"
             && negb (headIsWord rest)
          then ("option" ++ replaceOpt_from true rest)%string
          else String c (replaceOpt_from (JS.isWord c) s')
      | _ => String c (replaceOpt_from (JS.isWord c) s')
      end
  end.

Definition replaceOpt (chord : string) : string :=
  replaceOpt_from false chord.

Definition currentSequenceStr (s : t) : string :=
  let normalizedSequence := map replaceOpt (currentChordSequence s) in
  JS.toLowerCase (JS.join " " normalizedSequence).

Definition filterBindings (s : t) (bindings : list ParsedKeybinding.t)
  : list ParsedKeybinding.t :=
  if List.length (currentChordSequence s) =? 0 then bindings
  else
    let currentSequenceStr := currentSequenceStr s in
    filter
      (fun binding =>
         let bindingKey := JS.toLowerCase (ParsedKeybinding.key binding) in
         if String.eqb bindingKey currentSequenceStr then true
         else if JS.startsWith (currentSequenceStr ++ " ")%string bindingKey
              then true
              else false)
      bindings.

Definition getNextPossibleKeys (s : t) (prefixTree : JSMap.t PrefixNode.t)
  : list string :=
  if List.length (currentChordSequence s) =? 0 then JSMap.keys prefixTree
  else
    let sequenceStr := JS.join " " (currentChordSequence s) in
    match findNode prefixTree sequenceStr with
    | None => []
    | Some node =>
        let nextKeys := JSMap.keys (PrefixNode.children node) in
        if 0 <? List.length (PrefixNode.bindings node)
        then nextKeys ++ ["(completes)"]
        else nextKeys
    end.

Definition dispose (s : t) : t := deactivate s.

End LiveChordTracker.

Import LiveChordTracker.

(** ** Views of the indexed bindings ([SearchIndex] of [src/searchIndex.ts])

    The index object is the binding list given to [buildIndex]; the fuzzy
    search itself belongs to the library the class wraps. *)

Module SearchIndex.

Record t : Type := mk {
  bindings : list ParsedKeybinding.t
}.

(** The field as the class initialises it. *)
Definition create : t := mk [].

Definition buildIndex (index : t) (bindings : list ParsedKeybinding.t) : t :=
  mk bindings.

(** [b.category === category]: never true of a category that is not a
    string. *)
Definition filterByCategory (index : t) (category : string)
  : list ParsedKeybinding.t :=
  filter (fun b => match ParsedKeybinding.category b with
                   | Some c => String.eqb c category
                   | None => false
                   end)
         (bindings index).

Definition filterMultiChord (index : t) : list ParsedKeybinding.t :=
  filter (fun b => ParsedKeybinding.isMultiChord b) (bindings index).

Definition filterSingleChord (index : t) : list ParsedKeybinding.t :=
  filter (fun b => negb (ParsedKeybinding.isMultiChord b)) (bindings index).

End SearchIndex.

(** ** The filter of the settings ([SettingsManager.applyFilters])

    The configuration is read from the editor; the one setting the
    filter looks at is an argument here. *)

Module SettingsManager.

Definition applyFilters (showDisabledBindings : bool)
                        (bindings : list ParsedKeybinding.t)
  : list ParsedKeybinding.t :=
  let filtered := bindings in
  if negb showDisabledBindings
  then filter (fun b => negb (ParsedKeybinding.disabled b)) filtered
  else filtered.

End SettingsManager.

(** ** What the tree view shows ([src/treeView.ts])

    [applyFiltersAndLiveMode] sets the fields [bindings] and
    [prefixTree] of the provider from [allBindings]; the pair returned
    here is the new value of the two fields. *)

Module ChordMapTreeDataProvider.

Definition applyFiltersAndLiveMode (showDisabledBindings : bool)
                                   (liveTracker : LiveChordTracker.t)
                                   (allBindings : list ParsedKeybinding.t)
  : list ParsedKeybinding.t * JSMap.t PrefixNode.t :=
  let filtered :=
    SettingsManager.applyFilters showDisabledBindings allBindings in
  let filtered :=
    if isLiveMode liveTracker then filterBindings liveTracker filtered
    else filtered in
  (filtered, buildPrefixTree filtered).

End ChordMapTreeDataProvider.

(** ** The specification's wording, where it is compared with the code *)

Module Spec.

(** The base key as the specification words it: walking the tokens
    left to right, the first token that is not a modifier, a modifier
    being a member of the known set that is not the last token. *)
Fixpoint firstNonModifier (len i : nat) (parts : list string) : string :=
  match parts with
  | [] => EmptyString
  | part :: rest =>
      if modifierSet_has part && (i <? len - 1)
      then firstNonModifier len (S i) rest
      else part
  end.

Definition baseKey (chord : string) : string :=
  let parts := JS.split "+" (JS.toLowerCase chord) in
  firstNonModifier (List.length parts) 0 parts.

(** The invariant of the chord data model as the specification words
    it: the base key is a recognized modifier only in a chord that
    consists of that single token. *)
Definition baseKeyInvariant (chord : string) : Prop :=
  modifierSet_has (KeyChord.key (parseChord chord)) = true ->
  List.length (JS.split "+" chord) = 1.

(** [filterBindings] as the specification words it: [S] is the
    case-insensitive join of the sequence by the separator, and a
    binding is kept when its key sequence string, compared without
    regard to case, is [S] or begins with [S] and the separator. *)
Definition sequenceStr (sequence : list string) : string :=
  JS.toLowerCase (JS.join " " sequence).

Definition filterBindings (sequence : list string)
                          (bindings : list ParsedKeybinding.t)
  : list ParsedKeybinding.t :=
  match sequence with
  | [] => bindings
  | _ :: _ =>
      let S := sequenceStr sequence in
      filter
        (fun b =>
           let k := JS.toLowerCase (ParsedKeybinding.key b) in
           String.eqb k S || JS.startsWith (S ++ " ")%string k)
        bindings
  end.

(** The chord strings of a key sequence as the specification words
    them: trim, split on runs of white space; an empty trimmed string
    yields a zero-length sequence. *)
Definition keySequence (key : string) : list string :=
  if String.eqb (JS.trim key) EmptyString then []
  else JS.splitSpaces (JS.trim key).

End Spec.

(** ** Definitions used in the proofs *)

(** Induction on prefix tree nodes, with the property known of every
    child. *)
Section NodeInduction.
Variable P : PrefixNode.t -> Prop.
Hypothesis step :
  forall chord children bindings fullPath,
    Forall (fun kv => P (snd kv)) children ->
    P (PrefixNode.mk chord children bindings fullPath).

Fixpoint node_ind (n : PrefixNode.t) : P n :=
  match n with
  | PrefixNode.mk chord children bindings fullPath =>
      step chord children bindings fullPath
        ((fix all (l : list (string * PrefixNode.t))
            : Forall (fun kv => P (snd kv)) l :=
            match l with
            | [] => Forall_nil _
            | kv :: l' => Forall_cons kv (node_ind (snd kv)) (all l')
            end) children)
  end.
End NodeInduction.

(** The bindings below a node, in pre-order, as a function of the node
    alone. *)
Fixpoint bindingsBelow (n : PrefixNode.t) : list ParsedKeybinding.t :=
  match n with
  | PrefixNode.mk _ children bindings _ =>
      bindings ++ flat_map (fun kv => bindingsBelow (snd kv)) children
  end.

Definition bindingsIn (m : JSMap.t PrefixNode.t) : list ParsedKeybinding.t :=
  flat_map (fun kv => bindingsBelow (snd kv)) m.

(** A run of key events, one [handleKeyPress] for each chord in order. *)
Definition keyEvents (chords : list string) (s : LiveChordTracker.t)
  : LiveChordTracker.t :=
  fold_left (fun st chord => handleKeyPress chord st) chords s.

(** The canonical chord sequence of a key sequence string: the keys
    under which [buildPrefixTree] and [findNode] walk the tree. *)
Definition canonicalSequence (keySequence : string) : list string :=
  map (fun chord => normalizeChordKey (KeyChord.raw chord))
      (parseKeySequence keySequence).

(** The node reached from a node, and from the roots, along a list of
    canonical keys. *)
Fixpoint lookupBelow (keys : list string) (n : PrefixNode.t)
  : option PrefixNode.t :=
  match keys with
  | [] => Some n
  | k :: ks =>
      match JSMap.get k (PrefixNode.children n) with
      | None => None
      | Some child => lookupBelow ks child
      end
  end.

Definition lookupPath (keys : list string) (roots : JSMap.t PrefixNode.t)
  : option PrefixNode.t :=
  match keys with
  | [] => None
  | k :: ks =>
      match JSMap.get k roots with
      | None => None
      | Some n => lookupBelow ks n
      end
  end.

(** Whether a string contains a white-space character. *)
Fixpoint containsSpace (s : string) : bool :=
  match s with
  | EmptyString => false
  | String c s' => JS.isSpace c || containsSpace s'
  end.

(** The command of a raw record as a parsed binding stands for it: the
    disable marker put back in front of the command. *)
Definition rawCommand (b : ParsedKeybinding.t) : string :=
  if ParsedKeybinding.disabled b
  then String "-" (ParsedKeybinding.command b)
  else ParsedKeybinding.command b.

(** The fields of a raw record from which a binding is made: both [key]
    and [command] are non-empty strings. *)
Definition usableFields (raw : RawBinding)
  : list (string * string * option string) :=
  match raw with
  | Obj (Text key) (Text command) when =>
      if JS.truthy key && JS.truthy command then [(key, command, when)]
      else []
  | _ => []
  end.

(** The nodes below a node, itself included, and the nodes of a tree,
    in pre-order. *)
Fixpoint nodesBelow (n : PrefixNode.t) : list PrefixNode.t :=
  match n with
  | PrefixNode.mk _ children _ _ =>
      n :: flat_map (fun kv => nodesBelow (snd kv)) children
  end.

Definition nodesIn (m : JSMap.t PrefixNode.t) : list PrefixNode.t :=
  flat_map (fun kv => nodesBelow (snd kv)) m.

(** The number of edges on the longest path down from a node. *)
Fixpoint depthBelow (n : PrefixNode.t) : nat :=
  match n with
  | PrefixNode.mk _ children _ _ =>
      list_max (map (fun kv => S (depthBelow (snd kv))) children)
  end.

(** The nodes that lie a given number of edges below a node. *)
Fixpoint nodesAtDepth (n : PrefixNode.t) (depth : nat) : list PrefixNode.t :=
  match n with
  | PrefixNode.mk _ children _ _ =>
      match depth with
      | 0 => [n]
      | S d => flat_map (fun kv => nodesAtDepth (snd kv) d) children
      end
  end.

Definition hasBindings (n : PrefixNode.t) : bool :=
  0 <? List.length (PrefixNode.bindings n).

(** The number of chords of a binding's key sequence. *)
Definition chordCount (b : ParsedKeybinding.t) : nat :=
  List.length (parseKeySequence (ParsedKeybinding.key b)).

Definition hasKey (b : ParsedKeybinding.t) : bool :=
  JS.truthy (ParsedKeybinding.key b).

(** A binding is found at the end of a path of canonical keys. *)
Definition heldAt (b : ParsedKeybinding.t) (keys : list string)
                  (roots : JSMap.t PrefixNode.t) : Prop :=
  exists n, lookupPath keys roots = Some n /\ In b (PrefixNode.bindings n).

(** A node as it is later: the same chord and path, and at least the
    same bindings. *)
Definition nodeKept (n n' : PrefixNode.t) : Prop :=
  PrefixNode.chord n' = PrefixNode.chord n
  /\ PrefixNode.fullPath n' = PrefixNode.fullPath n
  /\ incl (PrefixNode.bindings n) (PrefixNode.bindings n').

(** Every path of one node, or tree, leads in the other to the node as
    it is later. *)
Definition nodeGrows (n n' : PrefixNode.t) : Prop :=
  forall keys found,
    lookupBelow keys n = Some found ->
    exists found', lookupBelow keys n' = Some found' /\ nodeKept found found'.

Definition treeGrows (m m' : JSMap.t PrefixNode.t) : Prop :=
  forall keys found,
    lookupPath keys m = Some found ->
    exists found', lookupPath keys m' = Some found' /\ nodeKept found found'.

(** The invariant of the nodes of a built tree.  For the node stored
    under the key [k] at the end of the key path [prefix]: [k] is the
    canonical key of the node's chord, the canonical keys of [fullPath]
    are the key path down to the node, [fullPath] ends with the node's
    chord, every binding of the node has that key path as its canonical
    chord sequence, and the same holds of the children. *)
Fixpoint nodeOK (prefix : list string) (k : string) (n : PrefixNode.t)
  : Prop :=
  match n with
  | PrefixNode.mk chord children bindings fullPath =>
      normalizeChordKey chord = k
      /\ map normalizeChordKey fullPath = prefix ++ [k]
      /\ last fullPath EmptyString = chord
      /\ Forall (fun b => canonicalSequence (ParsedKeybinding.key b)
                          = prefix ++ [k])
                bindings
      /\ (fix all (l : list (string * PrefixNode.t)) : Prop :=
            match l with
            | [] => True
            | kv :: l' => nodeOK (prefix ++ [k]) (fst kv) (snd kv) /\ all l'
            end) children
  end.

Definition treeOK (prefix : list string) (m : JSMap.t PrefixNode.t) : Prop :=
  Forall (fun kv => nodeOK prefix (fst kv) (snd kv)) m.

(** What can happen to a tracker: the public and the webview-driven
    entry points, and the firing of a timeout. *)
Inductive TrackerEvent : Type :=
  | EvResolveWebviewView
  | EvToggle
  | EvKeypressMessage (chord : string)
  | EvResetMessage
  | EvTimerFires (h : nat)
  | EvDispose.

Definition trackerStep (s : LiveChordTracker.t) (e : TrackerEvent)
  : LiveChordTracker.t :=
  match e with
  | EvResolveWebviewView => resolveWebviewView s
  | EvToggle => toggle s
  | EvKeypressMessage chord => onKeypressMessage chord s
  | EvResetMessage => onResetMessage s
  | EvTimerFires h => timerFires h s
  | EvDispose => dispose s
  end.

(** The tracker after a history of events, from its creation. *)
Definition trackerAfter (events : list TrackerEvent) : LiveChordTracker.t :=
  fold_left trackerStep events create.

(** * Properties *)

(** ** Strings *)

Lemma split_not_nil (sep : ascii) (s : string) : JS.split sep s <> [].
Proof.
  induction s as [|c s IH]; simpl; [discriminate|].
  destruct (Ascii.eqb c sep); [discriminate|].
  destruct (JS.split sep s); discriminate.
Qed.

Lemma splitSpacesFrom_not_nil (afterSpace : bool) (s : string) :
  JS.splitSpacesFrom afterSpace s <> [].
Proof.
  revert afterSpace.
  induction s as [|c s IH]; intros afterSpace; simpl; [discriminate|].
  destruct (JS.isSpace c).
  - destruct afterSpace; [apply IH | discriminate].
  - destruct (JS.splitSpacesFrom false s); discriminate.
Qed.

Lemma lowerChar_idempotent (c : ascii) :
  JS.lowerChar (JS.lowerChar c) = JS.lowerChar c.
Proof.
  destruct c as [b0 b1 b2 b3 b4 b5 b6 b7].
  destruct b0, b1, b2, b3, b4, b5, b6, b7; vm_compute; reflexivity.
Qed.

Lemma toLowerCase_idempotent (s : string) :
  JS.toLowerCase (JS.toLowerCase s) = JS.toLowerCase s.
Proof.
  induction s as [|c s IH]; simpl; [reflexivity|].
  now rewrite lowerChar_idempotent, IH.
Qed.

Lemma string_append_assoc (a b c : string) :
  ((a ++ b) ++ c = a ++ b ++ c)%string.
Proof. induction a as [|x a IH]; simpl; [reflexivity | now rewrite IH]. Qed.

Lemma startsWith_iff (p s : string) :
  JS.startsWith p s = true <-> exists rest, s = (p ++ rest)%string.
Proof.
  revert s.
  induction p as [|a p IH]; intros s; simpl.
  - split; [intros _; now exists s | reflexivity].
  - destruct s as [|b s].
    + split; [discriminate | intros [rest H]; discriminate].
    + rewrite andb_true_iff, Ascii.eqb_eq, IH.
      split.
      * intros [-> [rest ->]]. now exists rest.
      * intros [rest H]. injection H as -> ->. split; [reflexivity | now exists rest].
Qed.

(** ** The chord parser *)

Lemma parseChord_loop_cons len i part rest modifiers key :
  parseChord_loop len i (part :: rest) modifiers key
  = if modifierSet_has part && (i <? len - 1)
    then parseChord_loop len (S i) rest (modifiers ++ [part]) key
    else parseChord_loop len (S i) rest modifiers part.
Proof. reflexivity. Qed.

(** What the loop of [parseChord] computes on a non-empty token array:
    the members of the modifier set among all tokens but the last are
    appended to [modifiers], in order, and [key] ends as the last token. *)
Lemma parseChord_loop_spec (parts : list string) :
  forall len i modifiers key,
    i + List.length parts = len ->
    parts <> [] ->
    parseChord_loop len i parts modifiers key
    = (modifiers ++ filter modifierSet_has (removelast parts),
       last parts EmptyString).
Proof.
  induction parts as [|part rest IH]; intros len i modifiers key Hlen Hne.
  - now contradiction Hne.
  - destruct rest as [|part' rest'].
    + simpl in Hlen. simpl.
      replace (i <? len - 1) with false
        by (symmetry; apply Nat.ltb_ge; lia).
      rewrite andb_false_r, app_nil_r. reflexivity.
    + rewrite parseChord_loop_cons.
      replace (i <? len - 1) with true
        by (symmetry; apply Nat.ltb_lt; simpl in Hlen; lia).
      rewrite andb_true_r.
      assert (Hlen' : S i + List.length (part' :: rest') = len)
        by (simpl in *; lia).
      change (removelast (part :: part' :: rest'))
        with (part :: removelast (part' :: rest')).
      change (last (part :: part' :: rest') EmptyString)
        with (last (part' :: rest') EmptyString).
      destruct (modifierSet_has part) eqn:Hmod.
      * rewrite (IH len (S i) _ key Hlen' ltac:(discriminate)).
        simpl filter at 2. rewrite Hmod, <- app_assoc. reflexivity.
      * rewrite (IH len (S i) _ part Hlen' ltac:(discriminate)).
        simpl filter at 2. rewrite Hmod. reflexivity.
Qed.

Lemma parseChord_spec (chord : string) :
  parseChord chord
  = KeyChord.mk
      (filter modifierSet_has
              (removelast (JS.split "+" (JS.toLowerCase chord))))
      (last (JS.split "+" (JS.toLowerCase chord)) EmptyString)
      chord.
Proof.
  unfold parseChord.
  set (parts := JS.split "+" (JS.toLowerCase chord)).
  rewrite (parseChord_loop_spec parts (List.length parts) 0 [] EmptyString
             eq_refl (split_not_nil _ _)).
  reflexivity.
Qed.

Lemma parseKeySequence_not_nil (keySequence : string) :
  parseKeySequence keySequence <> [].
Proof.
  unfold parseKeySequence, JS.splitSpaces.
  pose proof (splitSpacesFrom_not_nil false (JS.trim keySequence)) as H.
  destruct (JS.splitSpacesFrom false (JS.trim keySequence));
    [now contradiction H | discriminate].
Qed.

Example parseChord_doc_example :
  parseChord "cmd+shift+k" = KeyChord.mk ["cmd"; "shift"] "k" "cmd+shift+k".
Proof. reflexivity. Qed.

Lemma split_single (sep : ascii) (s t : string) :
  JS.split sep s = [t] -> t = s.
Proof.
  revert t.
  induction s as [|c s IH]; intros t; simpl.
  - now intros [= <-].
  - destruct (Ascii.eqb c sep).
    + intros [= _ H]. now contradiction (split_not_nil sep s).
    + destruct (JS.split sep s) as [|p ps] eqn:E.
      * now contradiction (split_not_nil sep s).
      * intros [= <- ->]. now rewrite (IH p eq_refl).
Qed.

(** The default order of [sort] is a total order on strings, so sorting
    forgets the order of its input. *)
Lemma leb_lt_or_eq (a b : string) :
  String.leb a b = true <-> String_as_OT.lt a b \/ a = b.
Proof.
  unfold String.leb.
  destruct (String.compare a b) eqn:E.
  - apply String_as_OT.cmp_eq in E. split; [now right | reflexivity].
  - apply String_as_OT.cmp_lt in E. split; [now left | reflexivity].
  - split; [discriminate|].
    intros [H | H].
    + apply String_as_OT.cmp_lt in H. unfold String_as_OT.cmp in H. congruence.
    + apply String_as_OT.cmp_eq in H. unfold String_as_OT.cmp in H. congruence.
Qed.

Lemma leb_trans (a b c : string) :
  String.leb a b = true -> String.leb b c = true -> String.leb a c = true.
Proof.
  rewrite !leb_lt_or_eq.
  intros [Hab | ->] [Hbc | ->]; auto.
  left. exact (String_as_OT.lt_trans _ _ _ Hab Hbc).
Qed.

Lemma leb_false_flip (a b : string) :
  String.leb a b = false -> String.leb b a = true.
Proof.
  intros H. destruct (String.leb_total a b) as [H' | H']; congruence.
Qed.

Lemma insertSorted_comm (x y : string) (l : list string) :
  JS.insertSorted x (JS.insertSorted y l)
  = JS.insertSorted y (JS.insertSorted x l).
Proof.
  induction l as [|z l IH]; simpl.
  - destruct (String.leb x y) eqn:Hxy, (String.leb y x) eqn:Hyx;
      try reflexivity.
    + now rewrite (String.leb_antisym _ _ Hxy Hyx).
    + apply leb_false_flip in Hxy. congruence.
  - destruct (String.leb y z) eqn:Hyz, (String.leb x z) eqn:Hxz; simpl;
      rewrite ?Hyz, ?Hxz.
    + destruct (String.leb x y) eqn:Hxy, (String.leb y x) eqn:Hyx;
        try reflexivity.
      * now rewrite (String.leb_antisym _ _ Hxy Hyx).
      * apply leb_false_flip in Hxy. congruence.
    + destruct (String.leb x y) eqn:Hxy; [|reflexivity].
      rewrite (leb_trans _ _ _ Hxy Hyz) in Hxz. discriminate.
    + destruct (String.leb y x) eqn:Hyx; [|reflexivity].
      rewrite (leb_trans _ _ _ Hyx Hxz) in Hyz. discriminate.
    + now rewrite IH.
Qed.

Lemma sort_permutation (l1 l2 : list string) :
  Permutation l1 l2 -> JS.sort l1 = JS.sort l2.
Proof.
  induction 1 as [| x l1 l2 _ IH | x y l | l1 l2 l3 _ IH1 _ IH2]; simpl.
  - reflexivity.
  - now rewrite IH.
  - apply insertSorted_comm.
  - now rewrite IH1.
Qed.

(** The canonical key depends on the modifiers of the parsed chord as a
    multiset only. *)
Lemma normalizeChordKey_modifier_order (chord1 chord2 : string) :
  Permutation (KeyChord.modifiers (parseChord chord1))
              (KeyChord.modifiers (parseChord chord2)) ->
  KeyChord.key (parseChord chord1) = KeyChord.key (parseChord chord2) ->
  normalizeChordKey chord1 = normalizeChordKey chord2.
Proof.
  intros Hmods Hkey. unfold normalizeChordKey.
  now rewrite (sort_permutation _ _ Hmods), Hkey.
Qed.

(** C1.  The chord strings "shift+cmd+k" and "cmd+shift+k" have the same
    canonical key, "cmd+shift+k" (modifiers sorted, joined with '+', base
    key appended), and therefore a lookup with either one follows the
    same path in any tree. *)
Theorem canonical_key_modifier_order :
  normalizeChordKey "shift+cmd+k" = normalizeChordKey "cmd+shift+k"
  /\ normalizeChordKey "cmd+shift+k" = "cmd+shift+k"
  /\ forall roots : JSMap.t PrefixNode.t,
       findNode roots "shift+cmd+k" = findNode roots "cmd+shift+k".
Proof.
  split; [reflexivity|].
  split; [reflexivity|].
  intros roots. reflexivity.
Qed.

(** C4, as the code has it.  For every chord string, the modifiers of
    the parsed chord are the tokens that belong to the known modifier
    set and are not the last token, in their order, and the base key is
    the last token, not the first token outside the modifier set:
    "cmd+x+shift+k" parses to the modifiers cmd and shift and the base
    key k. *)
Theorem parseChord_modifiers_and_base_key :
  forall chord : string,
    let parts := JS.split "+" (JS.toLowerCase chord) in
    KeyChord.modifiers (parseChord chord)
    = filter modifierSet_has (removelast parts)
    /\ KeyChord.key (parseChord chord) = last parts EmptyString
    /\ parseChord "cmd+x+shift+k"
       = KeyChord.mk ["cmd"; "shift"] "k" "cmd+x+shift+k".
Proof.
  intros chord parts. subst parts.
  rewrite parseChord_spec. cbn [KeyChord.modifiers KeyChord.key].
  repeat split; reflexivity.
Qed.

(** C4 as the specification words it fails: in "cmd+x+shift+k" the first
    token outside the modifier set is x, and the base key is k. *)
Lemma parseChord_base_key_is_not_first_non_modifier :
  Spec.baseKey "cmd+x+shift+k" = "x"
  /\ KeyChord.key (parseChord "cmd+x+shift+k")
     <> Spec.baseKey "cmd+x+shift+k".
Proof. split; [reflexivity | vm_compute; discriminate]. Qed.

(** C5, as the code has it.  The base key is a recognized modifier
    exactly when the last token of the chord is one, however many tokens
    come before it; and a chord of a single token has no modifiers and
    that token, in lower case, as its base key, also when the token is a
    modifier name. *)
Theorem base_key_modifier_iff_last_token :
  forall chord : string,
    let parts := JS.split "+" (JS.toLowerCase chord) in
    modifierSet_has (KeyChord.key (parseChord chord))
    = modifierSet_has (last parts EmptyString)
    /\ (List.length parts = 1 ->
        KeyChord.modifiers (parseChord chord) = []
        /\ KeyChord.key (parseChord chord) = JS.toLowerCase chord).
Proof.
  intros chord parts. rewrite parseChord_spec.
  cbn [KeyChord.modifiers KeyChord.key]. fold parts.
  split; [reflexivity|].
  intros Hlen.
  destruct parts as [|tok [|tok' rest]] eqn:E; try discriminate.
  apply split_single in E. subst tok. split; reflexivity.
Qed.

Lemma base_key_modifier_iff_last_token_witness :
  List.length (JS.split "+" (JS.toLowerCase "shift")) = 1
  /\ KeyChord.modifiers (parseChord "shift") = []
  /\ KeyChord.key (parseChord "shift") = "shift".
Proof.
  split; [reflexivity|].
  exact (proj2 (base_key_modifier_iff_last_token "shift") eq_refl).
Defined.

(** C5 as the specification words it fails: "cmd+shift" has two tokens
    and the recognized modifier shift as its base key. *)
Lemma base_key_invariant_fails_on_cmd_shift :
  ~ Spec.baseKeyInvariant "cmd+shift".
Proof.
  unfold Spec.baseKeyInvariant. intros H.
  specialize (H eq_refl). vm_compute in H. discriminate.
Qed.

(** C6, as the code has it.  Parsing does not depend on the case of the
    chord string as far as the modifiers and the base key go, and the
    field [raw] is the chord string as given: "CMD+K" and "cmd+k" parse
    to the same modifiers and the same base key, with [raw] "CMD+K" and
    "cmd+k". *)
Theorem parseChord_case_insensitive_except_raw :
  (forall chord : string,
     KeyChord.modifiers (parseChord (JS.toLowerCase chord))
     = KeyChord.modifiers (parseChord chord)
     /\ KeyChord.key (parseChord (JS.toLowerCase chord))
        = KeyChord.key (parseChord chord)
     /\ KeyChord.raw (parseChord chord) = chord)
  /\ parseChord "CMD+K" = KeyChord.mk ["cmd"] "k" "CMD+K"
  /\ parseChord "cmd+k" = KeyChord.mk ["cmd"] "k" "cmd+k".
Proof.
  split; [|split; reflexivity].
  intros chord. rewrite !parseChord_spec.
  cbn [KeyChord.modifiers KeyChord.key KeyChord.raw].
  rewrite toLowerCase_idempotent. repeat split; reflexivity.
Qed.

(** C6 as the specification words it fails: the two chords differ in
    the field [raw]. *)
Lemma parseChord_upper_lower_differ :
  parseChord "CMD+K" <> parseChord "cmd+k".
Proof. vm_compute. discriminate. Qed.

(** C7, on the code: [parseKeySequence] never returns the empty array;
    for the empty string and for a string of white space it returns one
    chord, with no modifiers and the empty base key. *)
Theorem parseKeySequence_blank_yields_one_chord :
  parseKeySequence "" = [KeyChord.mk [] "" ""]
  /\ parseKeySequence "   " = [KeyChord.mk [] "" ""]
  /\ forall keySequence : string,
       1 <= List.length (parseKeySequence keySequence).
Proof.
  split; [reflexivity|]. split; [reflexivity|].
  intros keySequence.
  pose proof (parseKeySequence_not_nil keySequence) as H.
  destruct (parseKeySequence keySequence); [now contradiction H | simpl; lia].
Qed.

(** ** The prefix tree *)

Lemma bindingsBelow_unfold (n : PrefixNode.t) :
  bindingsBelow n = PrefixNode.bindings n ++ bindingsIn (PrefixNode.children n).
Proof. destruct n; reflexivity. Qed.

Lemma flattenTree_traverse_children children :
  Forall (fun kv => forall acc,
            flattenTree_traverse (snd kv) acc = acc ++ bindingsBelow (snd kv))
         children ->
  forall acc,
    fold_left (fun acc kv => flattenTree_traverse (snd kv) acc) children acc
    = acc ++ bindingsIn children.
Proof.
  induction 1 as [|kv l Hkv _ IH]; intros acc; simpl.
  - now rewrite app_nil_r.
  - rewrite Hkv, IH, <- app_assoc. reflexivity.
Qed.

Lemma flattenTree_traverse_spec (n : PrefixNode.t) :
  forall acc, flattenTree_traverse n acc = acc ++ bindingsBelow n.
Proof.
  induction n as [chord children bindings fullPath IH] using node_ind.
  intros acc. simpl.
  rewrite (flattenTree_traverse_children children IH), <- app_assoc.
  reflexivity.
Qed.

Lemma fold_left_values {A V : Type} (f : A -> V -> A)
      (m : JSMap.t V) (a : A) :
  fold_left f (JSMap.values m) a = fold_left (fun a kv => f a (snd kv)) m a.
Proof.
  revert a. induction m as [|kv m IH]; intros a; simpl; [reflexivity|].
  apply IH.
Qed.

Lemma flattenTree_spec (roots : JSMap.t PrefixNode.t) :
  flattenTree roots = bindingsIn roots.
Proof.
  unfold flattenTree.
  rewrite fold_left_values.
  rewrite (flattenTree_traverse_children roots).
  - reflexivity.
  - apply Forall_forall. intros kv _. apply flattenTree_traverse_spec.
Qed.

(** Storing, under [k], a node that holds one binding more than the node
    found there (or than a fresh node, when there is none) adds that
    binding to the map. *)
Lemma bindingsIn_set (b : ParsedKeybinding.t) (fresh v' : PrefixNode.t)
      (k : string) (m : JSMap.t PrefixNode.t) :
  bindingsBelow fresh = [] ->
  Permutation (bindingsBelow v')
              (b :: bindingsBelow (match JSMap.get k m with
                                   | Some n => n
                                   | None => fresh
                                   end)) ->
  Permutation (bindingsIn (JSMap.set k v' m)) (b :: bindingsIn m).
Proof.
  intros Hfresh.
  induction m as [|[k' v] m IH]; simpl; intros Hv'.
  - rewrite Hfresh in Hv'. unfold bindingsIn. simpl.
    now rewrite app_nil_r.
  - destruct (String.eqb k k'); unfold bindingsIn; simpl.
    + rewrite Hv'. reflexivity.
    + fold (bindingsIn (JSMap.set k v' m)). fold (bindingsIn m).
      rewrite (IH Hv'). symmetry. apply Permutation_middle.
Qed.

Lemma bindingsBelow_descend (binding : ParsedKeybinding.t)
      (chords : list KeyChord.t) :
  forall fullPath currentNode,
    Permutation (bindingsBelow (descend chords fullPath binding currentNode))
                (binding :: bindingsBelow currentNode).
Proof.
  induction chords as [|chord rest IH]; intros fullPath currentNode.
  - simpl. rewrite !bindingsBelow_unfold. simpl.
    rewrite <- app_assoc. simpl. symmetry. apply Permutation_middle.
  - simpl. rewrite !bindingsBelow_unfold. simpl.
    rewrite (bindingsIn_set binding
               (createNode (KeyChord.raw chord)
                           (fullPath ++ [KeyChord.raw chord]))).
    + symmetry. apply Permutation_middle.
    + reflexivity.
    + apply IH.
Qed.

Lemma bindingsIn_addBinding (roots : JSMap.t PrefixNode.t)
      (binding : ParsedKeybinding.t) :
  Permutation
    (bindingsIn (addBinding roots binding))
    (if JS.truthy (ParsedKeybinding.key binding)
     then binding :: bindingsIn roots
     else bindingsIn roots).
Proof.
  unfold addBinding.
  destruct (JS.truthy (ParsedKeybinding.key binding)); simpl; [|reflexivity].
  pose proof (parseKeySequence_not_nil (ParsedKeybinding.key binding)) as Hne.
  destruct (parseKeySequence (ParsedKeybinding.key binding))
    as [|chord0 rest]; [now contradiction Hne|].
  apply (bindingsIn_set binding
           (createNode (KeyChord.raw chord0) [KeyChord.raw chord0])).
  - reflexivity.
  - apply bindingsBelow_descend.
Qed.

Lemma bindingsIn_fold_addBinding (bindings : list ParsedKeybinding.t) :
  forall roots,
    Permutation
      (bindingsIn (fold_left addBinding bindings roots))
      (bindingsIn roots
       ++ filter (fun b => JS.truthy (ParsedKeybinding.key b)) bindings).
Proof.
  induction bindings as [|b bindings IH]; intros roots; simpl.
  - now rewrite app_nil_r.
  - rewrite IH, (bindingsIn_addBinding roots b).
    destruct (JS.truthy (ParsedKeybinding.key b)).
    + apply Permutation_middle.
    + reflexivity.
Qed.

(** X24.  For every binding list, flattening the tree built from it
    gives a reordering, equal as a multiset, of the bindings of the list
    whose field [key] is not the empty string, the test [buildPrefixTree]
    skips a binding on: each of them occurs as often as in the list, and
    no binding whose [key] is the empty string occurs.  A key of white
    space only is not the empty string. *)
Theorem flattenTree_buildPrefixTree_permutation :
  forall bindings : list ParsedKeybinding.t,
    Permutation
      (flattenTree (buildPrefixTree bindings))
      (filter (fun b => JS.truthy (ParsedKeybinding.key b)) bindings)
    /\ Forall (fun b => ParsedKeybinding.key b <> EmptyString)
              (flattenTree (buildPrefixTree bindings)).
Proof.
  intros bindings.
  assert (H : Permutation
                (flattenTree (buildPrefixTree bindings))
                (filter (fun b => JS.truthy (ParsedKeybinding.key b))
                        bindings)).
  { rewrite flattenTree_spec. unfold buildPrefixTree.
    rewrite bindingsIn_fold_addBinding. reflexivity. }
  split; [exact H|].
  apply Forall_forall. intros b Hin Hkey.
  apply (Permutation_in _ H), filter_In in Hin.
  destruct Hin as [_ Ht]. rewrite Hkey in Ht. discriminate.
Qed.

(** C2, on the code.  A binding whose key is three spaces has no chord
    in its key sequence, yet [buildPrefixTree] does not skip it: the
    binding is stored at a root node with the empty chord, under the
    empty canonical key, and [flattenTree] returns it. *)
Theorem blank_key_binding_is_kept :
  forall (command : string) (when : option string) (disabled : bool)
         (sourceEditor : string) (commandLabel category : option string)
         (isMultiChord : bool) (conflictsWith : option (list string)),
    let b := ParsedKeybinding.mk "   " command when disabled sourceEditor
               commandLabel category isMultiChord conflictsWith in
    Spec.keySequence (ParsedKeybinding.key b) = []
    /\ buildPrefixTree [b] = [("", PrefixNode.mk "" [] [b] [""])]
    /\ flattenTree (buildPrefixTree [b]) = [b].
Proof. intros. repeat split; reflexivity. Qed.

(** C9.  The two bindings with the keys "cmd+k cmd+s" and "cmd+k", in
    this order, build a tree of two nodes: the root for cmd+k, which
    carries the second binding, and its child for cmd+s, which carries
    the first.  The statistics are 2 nodes, maximal depth 1, one
    single-chord binding and one multi-chord binding. *)
Theorem shared_prefix_scenario_stats :
  forall saveAll x : ParsedKeybinding.t,
    ParsedKeybinding.key saveAll = "cmd+k cmd+s" ->
    ParsedKeybinding.key x = "cmd+k" ->
    let tree := buildPrefixTree [saveAll; x] in
    tree = [("cmd+k",
             PrefixNode.mk "cmd+k"
               [("cmd+s",
                 PrefixNode.mk "cmd+s" [] [saveAll] ["cmd+k"; "cmd+s"])]
               [x] ["cmd+k"])]
    /\ totalNodes (getTreeStats tree) = 2
    /\ maxDepth (getTreeStats tree) = 1
    /\ singleChordCount (getTreeStats tree) = 1
    /\ multiChordCount (getTreeStats tree) = 1.
Proof.
  intros saveAll x HsaveAll Hx tree. subst tree.
  assert (Htree : buildPrefixTree [saveAll; x]
                  = [("cmd+k",
                      PrefixNode.mk "cmd+k"
                        [("cmd+s",
                          PrefixNode.mk "cmd+s" [] [saveAll]
                                        ["cmd+k"; "cmd+s"])]
                        [x] ["cmd+k"])]).
  { unfold buildPrefixTree. cbn [fold_left]. unfold addBinding.
    rewrite HsaveAll, Hx. reflexivity. }
  rewrite Htree. repeat split; reflexivity.
Qed.

Lemma shared_prefix_scenario_stats_witness :
  let saveAll :=
    ParsedKeybinding.mk "cmd+k cmd+s" "workbench.action.files.saveAll" None
      false "VS Code" None (Some "Workbench") true (Some []) in
  let x :=
    ParsedKeybinding.mk "cmd+k" "x" None false "VS Code" None (Some "Other")
      false (Some []) in
  getTreeStats (buildPrefixTree [saveAll; x]) = mkStats 2 1 1 1.
Proof.
  intros saveAll x.
  destruct (shared_prefix_scenario_stats saveAll x eq_refl eq_refl)
    as (_ & Htotal & Hdepth & Hsingle & Hmulti).
  destruct (getTreeStats (buildPrefixTree [saveAll; x])).
  cbn in Htotal, Hdepth, Hsingle, Hmulti. subst. reflexivity.
Defined.

(** ** The live chord tracker *)

Lemma truthy_iff (s : string) : JS.truthy s = true <-> s <> EmptyString.
Proof.
  unfold JS.truthy. rewrite negb_true_iff. apply String.eqb_neq.
Qed.

Lemma handleKeyPress_chord (chord : string) (s : LiveChordTracker.t) :
  chord <> EmptyString ->
  handleKeyPress chord s
  = LiveChordTracker.mk
      (isActive s)
      (currentChordSequence s ++ [chord])
      (Some (nextTimer s))
      (match resetTimer s with
       | Some h => clearTimeout h (pendingTimers s)
       | None => pendingTimers s
       end ++ [nextTimer s])
      (S (nextTimer s))
      (emitted s ++ [currentChordSequence s ++ [chord]]).
Proof.
  intros H. unfold handleKeyPress.
  apply truthy_iff in H. rewrite H. reflexivity.
Qed.

(** A run of key events with non-empty chords appends the chords in
    order, keeps the activity flag, and leaves the timeout of the last
    event pending. *)
Lemma keyEvents_spec (chords : list string) :
  forall s,
    Forall (fun chord => chord <> EmptyString) chords ->
    currentChordSequence (keyEvents chords s)
    = currentChordSequence s ++ chords
    /\ isActive (keyEvents chords s) = isActive s
    /\ (chords <> [] ->
        exists h, resetTimer (keyEvents chords s) = Some h
                  /\ In h (pendingTimers (keyEvents chords s))).
Proof.
  induction chords as [|chord chords IH]; intros s Hne.
  - simpl. rewrite app_nil_r. repeat split. intros H. now contradiction H.
  - inversion Hne as [|? ? Hchord Hrest]; subst.
    unfold keyEvents in *. cbn [fold_left].
    destruct (IH (handleKeyPress chord s) Hrest) as (Hseq & Hact & Htimer).
    rewrite Hseq, Hact, (handleKeyPress_chord chord s Hchord).
    cbn [currentChordSequence isActive].
    rewrite <- app_assoc. repeat split.
    intros _. destruct chords as [|chord' chords'].
    + cbn [fold_left resetTimer pendingTimers].
      exists (nextTimer s). split; [reflexivity|].
      apply in_or_app. right. now left.
    + rewrite (handleKeyPress_chord chord s Hchord) in Htimer.
      apply Htimer. discriminate.
Qed.

(** C3.  On an active tracker with an empty sequence, N key events with
    non-empty chords and nothing in between leave the N chords, in call
    order, as the current sequence.  The timeout of the last event is
    then pending; when it fires the sequence is cleared without a
    notification, and the next key event gives a sequence of length 1. *)
Theorem keyEvents_then_timeout :
  forall (s : LiveChordTracker.t) (chords : list string) (chord : string),
    isActive s = true ->
    currentChordSequence s = [] ->
    Forall (fun c => c <> EmptyString) chords ->
    chords <> [] ->
    chord <> EmptyString ->
    let s' := keyEvents chords s in
    getCurrentSequence s' = chords
    /\ List.length (getCurrentSequence s') = List.length chords
    /\ exists h,
         resetTimer s' = Some h
         /\ In h (pendingTimers s')
         /\ getCurrentSequence (timerFires h s') = []
         /\ emitted (timerFires h s') = emitted s'
         /\ getCurrentSequence (handleKeyPress chord (timerFires h s'))
            = [chord].
Proof.
  intros s chords chord Hactive Hempty Hchords Hne Hchord s'.
  destruct (keyEvents_spec chords s Hchords) as (Hseq & Hact & Htimer).
  fold s' in Hseq, Hact, Htimer.
  rewrite Hempty in Hseq. simpl in Hseq. rewrite Hactive in Hact.
  unfold getCurrentSequence.
  split; [exact Hseq|]. split; [now rewrite Hseq|].
  destruct (Htimer Hne) as (h & Hh & Hin).
  exists h. split; [exact Hh|]. split; [exact Hin|].
  assert (Hpending : existsb (Nat.eqb h) (pendingTimers s') = true).
  { apply existsb_exists. exists h. split; [exact Hin | apply Nat.eqb_refl]. }
  assert (Hfire : timerFires h s'
                  = LiveChordTracker.mk true [] (resetTimer s')
                      (clearTimeout h (pendingTimers s')) (nextTimer s')
                      (emitted s')).
  { unfold timerFires, resetSequence. rewrite Hpending.
    cbn [isActive]. rewrite Hact. reflexivity. }
  rewrite Hfire. cbn [currentChordSequence emitted].
  split; [reflexivity|]. split; [reflexivity|].
  rewrite (handleKeyPress_chord chord _ Hchord). reflexivity.
Qed.

Lemma keyEvents_then_timeout_witness :
  let s := activate create in
  let s' := keyEvents ["cmd+k"; "cmd+s"] s in
  getCurrentSequence s' = ["cmd+k"; "cmd+s"]
  /\ getCurrentSequence (handleKeyPress "a" (timerFires 1 s')) = ["a"].
Proof.
  intros s s'.
  assert (Hchords : Forall (fun c => c <> EmptyString) ["cmd+k"; "cmd+s"])
    by (repeat constructor; discriminate).
  destruct (keyEvents_then_timeout s ["cmd+k"; "cmd+s"] "a"
              eq_refl eq_refl Hchords ltac:(discriminate) ltac:(discriminate))
    as (Hseq & _ & h & Hh & _ & _ & _ & Hnext).
  split; [exact Hseq|].
  injection Hh as <-. exact Hnext.
Defined.

(** C10.  A key event with the empty chord string leaves the tracker as
    it was: the sequence, the notifications fired so far, the handle in
    [resetTimer] and the pending timeouts are all unchanged. *)
Theorem handleKeyPress_empty_chord_noop :
  forall s : LiveChordTracker.t,
    handleKeyPress "" s = s
    /\ getCurrentSequence (handleKeyPress "" s) = getCurrentSequence s
    /\ emitted (handleKeyPress "" s) = emitted s
    /\ resetTimer (handleKeyPress "" s) = resetTimer s
    /\ pendingTimers (handleKeyPress "" s) = pendingTimers s.
Proof. intros s. repeat split; reflexivity. Qed.

(** C8, as the code has it.  With an empty current sequence
    [filterBindings] returns the input list unchanged.  Otherwise, with S
    the current sequence in which every whole word opt has been replaced
    by option, joined by one space and put in lower case, it returns, in
    input order, exactly the bindings whose key in lower case is S or
    begins with S followed by a space. *)
Theorem filterBindings_characterisation :
  forall (s : LiveChordTracker.t) (bindings : list ParsedKeybinding.t),
    match currentChordSequence s with
    | [] => filterBindings s bindings = bindings
    | _ :: _ =>
        let S := JS.toLowerCase
                   (JS.join " " (map replaceOpt (currentChordSequence s))) in
        exists keep : ParsedKeybinding.t -> bool,
          filterBindings s bindings = filter keep bindings
          /\ forall b,
               keep b = true <->
               (JS.toLowerCase (ParsedKeybinding.key b) = S
                \/ exists rest,
                     JS.toLowerCase (ParsedKeybinding.key b)
                     = (S ++ " " ++ rest)%string)
    end.
Proof.
  intros s bindings. unfold filterBindings, currentSequenceStr.
  destruct (currentChordSequence s) as [|c cs] eqn:Hseq; [reflexivity|].
  cbn [List.length Nat.eqb]. cbv zeta.
  set (S := JS.toLowerCase (JS.join " " (map replaceOpt (c :: cs)))).
  eexists. split; [reflexivity|].
  intros b. cbv beta.
  destruct (String.eqb_spec (JS.toLowerCase (ParsedKeybinding.key b)) S)
    as [Heq|Hneq].
  - split; [now left | reflexivity].
  - destruct (JS.startsWith (S ++ " ") (JS.toLowerCase (ParsedKeybinding.key b)))
      eqn:Hstart.
    + split; [|reflexivity]. intros _. right.
      apply startsWith_iff in Hstart. destruct Hstart as [rest Hrest].
      exists rest. rewrite Hrest.
      now rewrite string_append_assoc.
    + split; [discriminate|]. intros [Heq|[rest Hrest]].
      * now contradiction Hneq.
      * assert (Htrue : JS.startsWith (S ++ " ")
                          (JS.toLowerCase (ParsedKeybinding.key b)) = true).
        { apply startsWith_iff. exists rest. rewrite Hrest.
          now rewrite string_append_assoc. }
        rewrite Htrue in Hstart. discriminate.
Qed.

(** C8 as the specification words it fails: after the key event
    cmd+opt+g the joined sequence is "cmd+opt+g", the key of the binding
    below, yet [filterBindings] drops that binding, because it compares
    with "cmd+option+g". *)
Lemma filterBindings_drops_opt_binding :
  let s := handleKeyPress "cmd+opt+g" (activate create) in
  let b := ParsedKeybinding.mk "cmd+opt+g" "x" None false "VS Code" None
             (Some "Other") false (Some []) in
  Spec.filterBindings (getCurrentSequence s) [b] = [b]
  /\ filterBindings s [b] = []
  /\ filterBindings s [b] <> Spec.filterBindings (getCurrentSequence s) [b].
Proof.
  intros s b. split; [reflexivity|]. split; [reflexivity|].
  vm_compute. discriminate.
Qed.

(** * Further properties of the code *)

(** ** Strings, continued *)

Lemma lowerChar_plus (c : ascii) :
  Ascii.eqb (JS.lowerChar c) "+" = Ascii.eqb c "+".
Proof.
  destruct c as [b0 b1 b2 b3 b4 b5 b6 b7].
  destruct b0, b1, b2, b3, b4, b5, b6, b7; vm_compute; reflexivity.
Qed.

Lemma isSpace_lowerChar (c : ascii) :
  JS.isSpace (JS.lowerChar c) = JS.isSpace c.
Proof.
  destruct c as [b0 b1 b2 b3 b4 b5 b6 b7].
  destruct b0, b1, b2, b3, b4, b5, b6, b7; vm_compute; reflexivity.
Qed.

Lemma split_plus_toLowerCase (s : string) :
  JS.split "+" (JS.toLowerCase s) = map JS.toLowerCase (JS.split "+" s).
Proof.
  induction s as [|c s IH]; simpl; [reflexivity|].
  rewrite lowerChar_plus, IH.
  destruct (Ascii.eqb c "+"); [reflexivity|].
  destruct (JS.split "+" s); reflexivity.
Qed.

Lemma split_tokens_exclude_sep (sep : ascii) (s : string) :
  Forall (fun t => JS.includes sep t = false) (JS.split sep s).
Proof.
  induction s as [|c s IH]; simpl.
  - repeat constructor.
  - destruct (Ascii.eqb c sep) eqn:E.
    + constructor; [reflexivity | exact IH].
    + destruct (JS.split sep s) as [|p ps].
      * constructor; [simpl; now rewrite E | constructor].
      * inversion IH; subst. constructor; [simpl; now rewrite E | assumption].
Qed.

Lemma split_without_sep (sep : ascii) (s : string) :
  JS.includes sep s = false -> JS.split sep s = [s].
Proof.
  induction s as [|c s IH]; simpl; [reflexivity|].
  intros H. apply orb_false_iff in H. destruct H as [Hc Hs].
  rewrite Hc, (IH Hs). reflexivity.
Qed.

Lemma split_append (sep : ascii) (s rest : string) :
  JS.includes sep s = false ->
  JS.split sep (s ++ String sep rest) = s :: JS.split sep rest.
Proof.
  induction s as [|c s IH]; simpl.
  - intros _. now rewrite Ascii.eqb_refl.
  - intros H. apply orb_false_iff in H. destruct H as [Hc Hs].
    rewrite Hc, (IH Hs). reflexivity.
Qed.

(** Splitting undoes joining, for tokens that do not contain the
    separator. *)
Lemma split_join (sep : ascii) (l : list string) :
  l <> [] ->
  Forall (fun t => JS.includes sep t = false) l ->
  JS.split sep (JS.join (String sep EmptyString) l) = l.
Proof.
  induction l as [|x l IH]; intros Hne Hall; [now contradiction Hne|].
  inversion Hall as [|? ? Hx Hl]; subst.
  destruct l as [|y l'].
  - simpl. now apply split_without_sep.
  - change (JS.join (String sep EmptyString) (x :: y :: l'))
      with (x ++ String sep (JS.join (String sep EmptyString) (y :: l')))%string.
    rewrite (split_append sep x _ Hx), (IH ltac:(discriminate) Hl).
    reflexivity.
Qed.

Lemma toLowerCase_append (a b : string) :
  JS.toLowerCase (a ++ b) = (JS.toLowerCase a ++ JS.toLowerCase b)%string.
Proof. induction a as [|c a IH]; simpl; [reflexivity | now rewrite IH]. Qed.

Lemma toLowerCase_join (sep : string) (l : list string) :
  JS.toLowerCase (JS.join sep l)
  = JS.join (JS.toLowerCase sep) (map JS.toLowerCase l).
Proof.
  induction l as [|x l IH]; [reflexivity|].
  destruct l as [|y l']; [reflexivity|].
  change (JS.join sep (x :: y :: l'))
    with (x ++ sep ++ JS.join sep (y :: l'))%string.
  rewrite !toLowerCase_append, IH. reflexivity.
Qed.

(** ** Sorting, continued *)

Lemma insertSorted_permutation (x : string) (l : list string) :
  Permutation (JS.insertSorted x l) (x :: l).
Proof.
  induction l as [|y l IH]; simpl; [reflexivity|].
  destruct (String.leb x y); [reflexivity|].
  rewrite IH. apply perm_swap.
Qed.

Lemma sort_is_permutation (l : list string) : Permutation (JS.sort l) l.
Proof.
  induction l as [|x l IH]; simpl; [reflexivity|].
  rewrite insertSorted_permutation. now apply perm_skip.
Qed.

Lemma sort_idempotent (l : list string) : JS.sort (JS.sort l) = JS.sort l.
Proof. apply sort_permutation, sort_is_permutation. Qed.

(** ** The chord parser, continued *)

Lemma Forall_last {A : Type} (P : A -> Prop) (l : list A) (d : A) :
  l <> [] -> Forall P l -> P (last l d).
Proof.
  induction l as [|x l IH]; intros Hne Hall; [now contradiction Hne|].
  inversion Hall; subst.
  destruct l as [|y l']; [assumption|].
  apply IH; [discriminate | assumption].
Qed.

Lemma Forall_removelast {A : Type} (P : A -> Prop) (l : list A) :
  Forall P l -> Forall P (removelast l).
Proof.
  induction l as [|x l IH]; intros Hall; [constructor|].
  inversion Hall; subst.
  destruct l as [|y l']; [constructor|].
  change (removelast (x :: y :: l')) with (x :: removelast (y :: l')).
  constructor; [assumption | now apply IH].
Qed.

Lemma Forall_filter_both {A : Type} (P : A -> Prop) (f : A -> bool)
      (l : list A) :
  Forall P l -> Forall (fun x => P x /\ f x = true) (filter f l).
Proof.
  induction 1 as [|x l Hx _ IH]; simpl; [constructor|].
  destruct (f x) eqn:E; [constructor; auto | assumption].
Qed.

Lemma length_removelast_lt {A : Type} (l : list A) :
  l <> [] -> List.length (removelast l) < List.length l.
Proof.
  induction l as [|x l IH]; intros Hne; [now contradiction Hne|].
  destruct l as [|y l']; [simpl; lia|].
  change (removelast (x :: y :: l')) with (x :: removelast (y :: l')).
  specialize (IH ltac:(discriminate)). simpl in *. lia.
Qed.

Lemma modifierSet_has_In (part : string) :
  modifierSet_has part = true <-> In part knownModifiers.
Proof.
  unfold modifierSet_has. rewrite existsb_exists. split.
  - intros [m [Hin Heq]]. apply String.eqb_eq in Heq. now subst.
  - intros Hin. exists part. split; [assumption | apply String.eqb_refl].
Qed.

(** The tokens of a chord after lower-casing: none contains '+', and
    lower-casing changes none. *)
Lemma chord_tokens (chord : string) :
  Forall (fun t => JS.includes "+" t = false /\ JS.toLowerCase t = t)
         (JS.split "+" (JS.toLowerCase chord)).
Proof.
  apply Forall_and.
  - apply split_tokens_exclude_sep.
  - rewrite split_plus_toLowerCase. apply Forall_forall.
    intros t Hin. apply in_map_iff in Hin. destruct Hin as [u [<- _]].
    apply toLowerCase_idempotent.
Qed.

(** X1.  A parsed chord is well formed, whatever the chord string: its
    modifiers are members of the known modifier set, there are fewer of
    them than '+'-separated tokens, and the base key is in lower case and
    contains no '+'. *)
Theorem parseChord_well_formed :
  forall chord : string,
    Forall (fun m => In m knownModifiers)
           (KeyChord.modifiers (parseChord chord))
    /\ List.length (KeyChord.modifiers (parseChord chord))
       < List.length (JS.split "+" chord)
    /\ JS.includes "+" (KeyChord.key (parseChord chord)) = false
    /\ JS.toLowerCase (KeyChord.key (parseChord chord))
       = KeyChord.key (parseChord chord).
Proof.
  intros chord. rewrite parseChord_spec.
  cbn [KeyChord.modifiers KeyChord.key].
  pose proof (chord_tokens chord) as Htok.
  pose proof (split_not_nil "+" (JS.toLowerCase chord)) as Hne.
  split; [|split].
  - apply Forall_forall. intros m Hin. apply filter_In in Hin.
    now apply modifierSet_has_In.
  - apply Nat.le_lt_trans
      with (List.length (removelast (JS.split "+" (JS.toLowerCase chord)))).
    + apply filter_length_le.
    + replace (List.length (JS.split "+" chord))
        with (List.length (JS.split "+" (JS.toLowerCase chord)))
        by (rewrite split_plus_toLowerCase; apply length_map).
      now apply length_removelast_lt.
  - exact (Forall_last _ _ EmptyString Hne Htok).
Qed.

Lemma normalizeChordKey_spec (chord : string) :
  normalizeChordKey chord
  = let parts := JS.split "+" (JS.toLowerCase chord) in
    let sorted := JS.sort (filter modifierSet_has (removelast parts)) in
    match sorted with
    | [] => last parts EmptyString
    | _ :: _ => JS.join "+" (sorted ++ [last parts EmptyString])
    end.
Proof.
  unfold normalizeChordKey. rewrite parseChord_spec.
  cbn [KeyChord.modifiers KeyChord.key]. cbv zeta.
  destruct (JS.sort _); reflexivity.
Qed.

Lemma removelast_snoc {A : Type} (l : list A) (x : A) :
  removelast (l ++ [x]) = l.
Proof. apply removelast_last. Qed.

Lemma last_snoc {A : Type} (l : list A) (x d : A) : last (l ++ [x]) d = x.
Proof. apply last_last. Qed.

Lemma filter_all {A : Type} (f : A -> bool) (l : list A) :
  Forall (fun x => f x = true) l -> filter f l = l.
Proof.
  induction 1 as [|x l Hx _ IH]; simpl; [reflexivity|].
  now rewrite Hx, IH.
Qed.

(** Parsing the canonical key of a chord gives the chord's modifiers,
    sorted, and its base key. *)
Lemma parseChord_normalizeChordKey (chord : string) :
  KeyChord.modifiers (parseChord (normalizeChordKey chord))
  = JS.sort (KeyChord.modifiers (parseChord chord))
  /\ KeyChord.key (parseChord (normalizeChordKey chord))
     = KeyChord.key (parseChord chord).
Proof.
  rewrite (parseChord_spec (normalizeChordKey chord)), (parseChord_spec chord).
  cbn [KeyChord.modifiers KeyChord.key].
  rewrite (normalizeChordKey_spec chord). cbv zeta.
  set (parts := JS.split "+" (JS.toLowerCase chord)).
  pose proof (chord_tokens chord) as Htok. fold parts in Htok.
  pose proof (split_not_nil "+" (JS.toLowerCase chord)) as Hne.
  fold parts in Hne.
  pose proof (Forall_last _ _ EmptyString Hne Htok) as [Hk_plus Hk_low].
  set (k := last parts EmptyString) in *.
  set (mods := filter modifierSet_has (removelast parts)).
  assert (Hmods : Forall (fun m => (JS.includes "+" m = false
                                    /\ JS.toLowerCase m = m)
                                   /\ modifierSet_has m = true)
                         (JS.sort mods)).
  { apply Forall_forall. intros m Hin.
    apply (Permutation_in _ (sort_is_permutation mods)) in Hin.
    revert m Hin. apply Forall_forall.
    apply Forall_filter_both, Forall_removelast, Htok. }
  destruct (JS.sort mods) as [|m sorted] eqn:Hsort.
  - rewrite Hk_low, (split_without_sep "+" k Hk_plus). split; reflexivity.
  - assert (Hall : Forall (fun t => JS.includes "+" t = false
                                    /\ JS.toLowerCase t = t)
                          ((m :: sorted) ++ [k])).
    { apply Forall_app. split.
      - eapply Forall_impl; [|exact Hmods]. now intros t [H _].
      - now repeat constructor. }
    rewrite toLowerCase_join.
    replace (map JS.toLowerCase ((m :: sorted) ++ [k]))
      with ((m :: sorted) ++ [k]).
    2:{ symmetry. rewrite <- (map_id ((m :: sorted) ++ [k])) at 2.
        apply map_ext_Forall.
        eapply Forall_impl; [|exact Hall]. now intros t [_ H]. }
    change (JS.toLowerCase "+") with (String "+"%char EmptyString).
    rewrite split_join.
    2:{ destruct sorted; discriminate. }
    2:{ eapply Forall_impl; [|exact Hall]. now intros t [H _]. }
    rewrite removelast_snoc, last_snoc.
    rewrite filter_all.
    2:{ eapply Forall_impl; [|exact Hmods]. now intros t [_ H]. }
    split; reflexivity.
Qed.

(** X2.  The canonical key of a chord is a chord string for the same
    chord: parsed, it has the chord's base key and the chord's
    modifiers, in sorted order.  So canonicalizing a canonical key
    changes nothing, and a key of the tree can be used as a chord in a
    lookup. *)
Theorem normalizeChordKey_round_trip :
  forall chord : string,
    KeyChord.modifiers (parseChord (normalizeChordKey chord))
    = JS.sort (KeyChord.modifiers (parseChord chord))
    /\ KeyChord.key (parseChord (normalizeChordKey chord))
       = KeyChord.key (parseChord chord)
    /\ normalizeChordKey (normalizeChordKey chord) = normalizeChordKey chord.
Proof.
  intros chord.
  destruct (parseChord_normalizeChordKey chord) as [Hmods Hkey].
  split; [exact Hmods|]. split; [exact Hkey|].
  unfold normalizeChordKey at 1 3.
  now rewrite Hmods, Hkey, sort_idempotent.
Qed.

Lemma trimStart_toLowerCase (s : string) :
  JS.trimStart (JS.toLowerCase s) = JS.toLowerCase (JS.trimStart s).
Proof.
  induction s as [|c s IH]; simpl; [reflexivity|].
  rewrite isSpace_lowerChar. destruct (JS.isSpace c); [exact IH | reflexivity].
Qed.

Lemma trimEnd_toLowerCase (s : string) :
  JS.trimEnd (JS.toLowerCase s) = JS.toLowerCase (JS.trimEnd s).
Proof.
  induction s as [|c s IH]; simpl; [reflexivity|].
  rewrite IH, isSpace_lowerChar.
  destruct (JS.trimEnd s); simpl; [destruct (JS.isSpace c)|]; reflexivity.
Qed.

Lemma trim_toLowerCase (s : string) :
  JS.trim (JS.toLowerCase s) = JS.toLowerCase (JS.trim s).
Proof.
  unfold JS.trim. now rewrite trimStart_toLowerCase, trimEnd_toLowerCase.
Qed.

Lemma splitSpacesFrom_toLowerCase (s : string) :
  forall afterSpace,
    JS.splitSpacesFrom afterSpace (JS.toLowerCase s)
    = map JS.toLowerCase (JS.splitSpacesFrom afterSpace s).
Proof.
  induction s as [|c s IH]; intros afterSpace; simpl; [reflexivity|].
  rewrite isSpace_lowerChar, !IH.
  destruct (JS.isSpace c).
  - destruct afterSpace; reflexivity.
  - destruct (JS.splitSpacesFrom false s); reflexivity.
Qed.

Lemma normalizeChordKey_toLowerCase (chord : string) :
  normalizeChordKey (JS.toLowerCase chord) = normalizeChordKey chord.
Proof.
  rewrite !normalizeChordKey_spec, toLowerCase_idempotent. reflexivity.
Qed.

Lemma parseChord_raw (chord : string) : KeyChord.raw (parseChord chord) = chord.
Proof. now rewrite parseChord_spec. Qed.

Lemma canonicalSequence_tokens (keySequence : string) :
  canonicalSequence keySequence
  = map normalizeChordKey (JS.splitSpaces (JS.trim keySequence)).
Proof.
  unfold canonicalSequence, parseKeySequence.
  rewrite map_map. apply map_ext. intros t. now rewrite parseChord_raw.
Qed.

Lemma canonicalSequence_toLowerCase (keySequence : string) :
  canonicalSequence (JS.toLowerCase keySequence)
  = canonicalSequence keySequence.
Proof.
  rewrite !canonicalSequence_tokens, trim_toLowerCase.
  unfold JS.splitSpaces. rewrite splitSpacesFrom_toLowerCase, map_map.
  apply map_ext. intros t. apply normalizeChordKey_toLowerCase.
Qed.

Lemma findNode_loop_lookupBelow (chords : list KeyChord.t) :
  forall n,
    findNode_loop chords n
    = lookupBelow
        (map (fun chord => normalizeChordKey (KeyChord.raw chord)) chords) n.
Proof.
  induction chords as [|chord rest IH]; intros n; simpl; [reflexivity|].
  destruct (JSMap.get _ _); [apply IH | reflexivity].
Qed.

(** [findNode] looks at its argument through the canonical chord
    sequence only. *)
Lemma findNode_lookupPath (roots : JSMap.t PrefixNode.t)
      (keySequence : string) :
  findNode roots keySequence
  = lookupPath (canonicalSequence keySequence) roots.
Proof.
  unfold findNode, canonicalSequence.
  destruct (parseKeySequence keySequence) as [|chord0 rest]; simpl;
    [reflexivity|].
  destruct (JSMap.get _ roots); [apply findNode_loop_lookupBelow | reflexivity].
Qed.

(** X3.  On strings whose code units are all below 256, the strings of
    this embedding, canonical keys and tree lookups do not depend on the
    case of the letters: a chord and its lower-case form have the same
    canonical key, and [findNode] returns the same node for a key
    sequence and for its lower-case form, in every tree.  (Above that
    range lower-casing depends on the neighbouring characters, and the
    statement is not made.) *)
Theorem lookup_case_insensitive :
  (forall chord : string,
     normalizeChordKey (JS.toLowerCase chord) = normalizeChordKey chord)
  /\ forall (roots : JSMap.t PrefixNode.t) (keySequence : string),
       findNode roots (JS.toLowerCase keySequence)
       = findNode roots keySequence.
Proof.
  split; [exact normalizeChordKey_toLowerCase|].
  intros roots keySequence.
  now rewrite !findNode_lookupPath, canonicalSequence_toLowerCase.
Qed.

(** X4.  The canonical key of a chord depends on the modifiers of the
    parsed chord as a multiset only: two chords with the same base key
    whose modifier lists are permutations of each other have the same
    canonical key. *)
Theorem normalizeChordKey_permutation_invariant :
  forall chord1 chord2 : string,
    Permutation (KeyChord.modifiers (parseChord chord1))
                (KeyChord.modifiers (parseChord chord2)) ->
    KeyChord.key (parseChord chord1) = KeyChord.key (parseChord chord2) ->
    normalizeChordKey chord1 = normalizeChordKey chord2.
Proof.
  intros chord1 chord2 Hmods Hkey. unfold normalizeChordKey.
  now rewrite (sort_permutation _ _ Hmods), Hkey.
Qed.

Lemma normalizeChordKey_permutation_invariant_witness :
  normalizeChordKey "ctrl+alt+shift+x" = normalizeChordKey "SHIFT+Ctrl+Alt+X".
Proof.
  apply normalizeChordKey_permutation_invariant.
  - change (Permutation ["ctrl"; "alt"; "shift"] ["shift"; "ctrl"; "alt"]).
    apply Permutation_sym.
    exact (Permutation_cons_append ["ctrl"; "alt"] "shift").
  - reflexivity.
Defined.

(** ** Parsing the records of a keybindings file *)

Lemma parseKeybindingsFile_loop_acc (sourceEditor : string)
      (rawBindings : list RawBinding) :
  forall parsed,
    fold_left
      (fun parsed binding =>
         match parseBinding binding sourceEditor with
         | Parsed result => parsed ++ [result]
         | Null | Throws => parsed
         end)
      rawBindings parsed
    = parsed ++ flat_map (fun raw => match parseBinding raw sourceEditor with
                                     | Parsed b => [b]
                                     | Null | Throws => []
                                     end)
                         rawBindings.
Proof.
  induction rawBindings as [|raw raws IH]; intros parsed; simpl.
  - now rewrite app_nil_r.
  - rewrite IH.
    destruct (parseBinding raw sourceEditor);
      simpl; now rewrite <- ?app_assoc.
Qed.

Lemma parseKeybindingsFile_loop_flat_map (rawBindings : list RawBinding)
      (sourceEditor : string) :
  parseKeybindingsFile_loop rawBindings sourceEditor
  = flat_map (fun raw => match parseBinding raw sourceEditor with
                         | Parsed b => [b]
                         | Null | Throws => []
                         end)
             rawBindings.
Proof. apply parseKeybindingsFile_loop_acc. Qed.

Lemma startsWith_dash_slice (command : string) :
  JS.startsWith "-" command = true ->
  String "-" (JS.slice 1 command) = command.
Proof.
  destruct command as [|c command]; [discriminate|].
  change (Ascii.eqb "-" c && true = true
          -> String "-" command = String c command).
  rewrite andb_true_r. intros H. apply Ascii.eqb_eq in H. now subst.
Qed.

(** What [parseBinding] makes of one raw record. *)
Lemma parseBinding_fields (raw : RawBinding) (sourceEditor : string) :
  match parseBinding raw sourceEditor with
  | Parsed b =>
      usableFields raw
      = [(ParsedKeybinding.key b, rawCommand b, ParsedKeybinding.when b)]
      /\ ParsedKeybinding.key b <> EmptyString
      /\ ParsedKeybinding.sourceEditor b = sourceEditor
      /\ ParsedKeybinding.isMultiChord b
         = (1 <? List.length (parseKeySequence (ParsedKeybinding.key b)))
  | Null | Throws => usableFields raw = []
  end.
Proof.
  destruct raw as [|key command when]; [reflexivity|].
  unfold parseBinding, usableFields.
  destruct key as [|key|], command as [|command|];
    cbn [fieldTruthy negb orb]; try reflexivity;
    try (destruct (JS.truthy key); reflexivity);
    try (destruct (JS.truthy command); reflexivity).
  destruct (JS.truthy key) eqn:Hkey; cbn [negb orb andb]; [|reflexivity].
  destruct (JS.truthy command) eqn:Hcommand; cbn [negb orb andb];
    [|reflexivity].
  unfold rawCommand. cbn [ParsedKeybinding.key ParsedKeybinding.disabled
    ParsedKeybinding.command ParsedKeybinding.when
    ParsedKeybinding.sourceEditor ParsedKeybinding.isMultiChord].
  repeat split.
  - destruct (JS.startsWith "-" command) eqn:Hdash.
    + now rewrite (startsWith_dash_slice command Hdash).
    + reflexivity.
  - now apply truthy_iff.
Qed.

(** X5.  The loop of [parseKeybindingsFile] never fails on a record: it
    returns one binding for each record whose key and command are
    non-empty strings, in the order of the input, and skips every other
    record.  The key and the when clause of a binding are those of its
    record, and the command of the record is the command of the binding
    with the disable marker put back when the binding is disabled. *)
Theorem parseKeybindingsFile_loop_round_trip :
  forall (rawBindings : list RawBinding) (sourceEditor : string),
    map (fun b => (ParsedKeybinding.key b, rawCommand b,
                   ParsedKeybinding.when b))
        (parseKeybindingsFile_loop rawBindings sourceEditor)
    = flat_map usableFields rawBindings.
Proof.
  intros rawBindings sourceEditor.
  rewrite parseKeybindingsFile_loop_flat_map.
  induction rawBindings as [|raw raws IH]; simpl; [reflexivity|].
  rewrite map_app, IH. f_equal.
  pose proof (parseBinding_fields raw sourceEditor) as H.
  destruct (parseBinding raw sourceEditor); simpl.
  - now rewrite H.
  - now rewrite H.
  - destruct H as [-> _]. reflexivity.
Qed.

Lemma splitSpaces_length_containsSpace (s : string) :
  (1 <? List.length (JS.splitSpacesFrom false s)) = containsSpace s.
Proof.
  induction s as [|c s IH]; simpl; [reflexivity|].
  destruct (JS.isSpace c); simpl.
  - pose proof (splitSpacesFrom_not_nil true s) as Hne.
    destruct (JS.splitSpacesFrom true s); [now contradiction Hne | reflexivity].
  - rewrite <- IH.
    pose proof (splitSpacesFrom_not_nil false s) as Hne.
    destruct (JS.splitSpacesFrom false s); [now contradiction Hne | reflexivity].
Qed.

Lemma parsed_bindings_fields (rawBindings : list RawBinding)
      (sourceEditor : string) :
  Forall (fun b =>
            ParsedKeybinding.key b <> EmptyString
            /\ ParsedKeybinding.sourceEditor b = sourceEditor
            /\ ParsedKeybinding.isMultiChord b
               = (1 <? List.length
                         (parseKeySequence (ParsedKeybinding.key b))))
         (parseKeybindingsFile_loop rawBindings sourceEditor).
Proof.
  rewrite parseKeybindingsFile_loop_flat_map.
  apply Forall_flat_map, Forall_forall. intros raw _.
  pose proof (parseBinding_fields raw sourceEditor) as H.
  destruct (parseBinding raw sourceEditor) as [| |b]; [constructor..|].
  destruct H as (_ & Hkey & Hed & Hmulti).
  repeat constructor; assumption.
Qed.

(** X6.  Every binding the loop of [parseKeybindingsFile] returns has a
    non-empty key, carries the name of the source editor, and is flagged
    as multi-chord exactly when its key, trimmed, contains white space. *)
Theorem parsed_bindings_well_formed :
  forall (rawBindings : list RawBinding) (sourceEditor : string),
    Forall (fun b =>
              ParsedKeybinding.key b <> EmptyString
              /\ ParsedKeybinding.sourceEditor b = sourceEditor
              /\ ParsedKeybinding.isMultiChord b
                 = containsSpace (JS.trim (ParsedKeybinding.key b)))
           (parseKeybindingsFile_loop rawBindings sourceEditor).
Proof.
  intros rawBindings sourceEditor.
  eapply Forall_impl; [|apply parsed_bindings_fields].
  intros b (Hkey & Hed & Hmulti). repeat split; try assumption.
  rewrite Hmulti. unfold parseKeySequence, JS.splitSpaces.
  rewrite length_map. apply splitSpaces_length_containsSpace.
Qed.

(** X7.  No parsed binding is lost in the prefix tree: flattening the
    tree built from the bindings that the loop of [parseKeybindingsFile]
    returns gives all of them back, up to their order. *)
Theorem parsed_bindings_survive_tree :
  forall (rawBindings : list RawBinding) (sourceEditor : string),
    Permutation
      (flattenTree
         (buildPrefixTree
            (parseKeybindingsFile_loop rawBindings sourceEditor)))
      (parseKeybindingsFile_loop rawBindings sourceEditor).
Proof.
  intros rawBindings sourceEditor.
  rewrite flattenTree_spec. unfold buildPrefixTree.
  rewrite bindingsIn_fold_addBinding. simpl.
  rewrite filter_all; [reflexivity|].
  eapply Forall_impl; [|apply parsed_bindings_fields].
  intros b [Hb _]. now apply truthy_iff.
Qed.

(** ** Traversals of a prefix tree *)

Lemma nodesBelow_unfold (n : PrefixNode.t) :
  nodesBelow n = n :: nodesIn (PrefixNode.children n).
Proof. destruct n; reflexivity. Qed.

Lemma depthBelow_unfold (n : PrefixNode.t) :
  depthBelow n
  = list_max (map (fun kv => S (depthBelow (snd kv))) (PrefixNode.children n)).
Proof. destruct n; reflexivity. Qed.

(** The bindings of a tree are the bindings of its nodes. *)
Lemma bindingsBelow_nodesBelow (n : PrefixNode.t) :
  bindingsBelow n = flat_map PrefixNode.bindings (nodesBelow n).
Proof.
  induction n as [chord children bindings fullPath IH] using node_ind.
  simpl. f_equal.
  induction IH as [|kv l Hkv _ IHl]; simpl; [reflexivity|].
  now rewrite flat_map_app, Hkv, IHl.
Qed.

Lemma bindingsIn_nodesIn (m : JSMap.t PrefixNode.t) :
  bindingsIn m = flat_map PrefixNode.bindings (nodesIn m).
Proof.
  unfold bindingsIn, nodesIn.
  induction m as [|kv m IH]; simpl; [reflexivity|].
  now rewrite flat_map_app, bindingsBelow_nodesBelow, IH.
Qed.

Lemma getLeafNodes_traverse_spec (n : PrefixNode.t) :
  forall leaves,
    getLeafNodes_traverse n leaves
    = leaves ++ filter hasBindings (nodesBelow n).
Proof.
  induction n as [chord children bindings fullPath IH] using node_ind.
  intros leaves. cbn [getLeafNodes_traverse nodesBelow filter].
  unfold hasBindings at 1. cbn [PrefixNode.bindings].
  set (node := PrefixNode.mk chord children bindings fullPath).
  assert (Hfold : forall acc,
             fold_left (fun acc kv => getLeafNodes_traverse (snd kv) acc)
                       children acc
             = acc ++ filter hasBindings
                             (flat_map (fun kv => nodesBelow (snd kv))
                                       children)).
  { clear node. induction IH as [|kv l Hkv _ IHl]; intros acc; simpl.
    - now rewrite app_nil_r.
    - rewrite Hkv, IHl, filter_app, <- app_assoc. reflexivity. }
  rewrite Hfold.
  destruct (0 <? List.length bindings); [|reflexivity].
  now rewrite <- app_assoc.
Qed.

Lemma getLeafNodes_spec (roots : JSMap.t PrefixNode.t) :
  getLeafNodes roots = filter hasBindings (nodesIn roots).
Proof.
  unfold getLeafNodes. rewrite fold_left_values.
  rewrite <- (app_nil_l (filter _ _)).
  generalize (@nil PrefixNode.t) as acc. unfold nodesIn.
  induction roots as [|kv m IH]; intros acc; simpl.
  - now rewrite app_nil_r.
  - rewrite IH, getLeafNodes_traverse_spec, filter_app, <- app_assoc.
    reflexivity.
Qed.

Lemma flat_map_filter_nonempty {A B : Type} (f : A -> list B) (l : list A) :
  flat_map f (filter (fun x => 0 <? List.length (f x)) l) = flat_map f l.
Proof.
  induction l as [|x l IH]; simpl; [reflexivity|].
  destruct (f x) eqn:E; simpl; [exact IH|].
  now rewrite E, IH.
Qed.

(** X8.  [getLeafNodes] returns, in pre-order, the nodes of the tree
    that carry bindings, and only those; the bindings of these nodes,
    one node after the other, are the list [flattenTree] returns. *)
Theorem getLeafNodes_flattenTree :
  forall roots : JSMap.t PrefixNode.t,
    getLeafNodes roots = filter hasBindings (nodesIn roots)
    /\ Forall (fun n => PrefixNode.bindings n <> []) (getLeafNodes roots)
    /\ flat_map PrefixNode.bindings (getLeafNodes roots) = flattenTree roots.
Proof.
  intros roots. rewrite getLeafNodes_spec. split; [reflexivity|]. split.
  - apply Forall_forall. intros n Hin. apply filter_In in Hin.
    destruct Hin as [_ H]. unfold hasBindings in H.
    destruct (PrefixNode.bindings n); [discriminate H | discriminate].
  - rewrite flattenTree_spec, bindingsIn_nodesIn.
    apply (flat_map_filter_nonempty PrefixNode.bindings).
Qed.

Lemma visit_spec (bindings : list ParsedKeybinding.t) (depth : nat)
      (s : Stats) :
  visit bindings depth s
  = mkStats (totalNodes s + 1)
            (Nat.max (maxDepth s) depth)
            (multiChordCount s
             + if depth =? 0 then 0 else List.length bindings)
            (singleChordCount s
             + if depth =? 0 then List.length bindings else 0).
Proof.
  unfold visit.
  destruct bindings as [|b bs]; cbn [List.length Nat.ltb Nat.leb];
    destruct (depth =? 0); f_equal; lia.
Qed.

Lemma list_max_shift (d : nat) {A : Type} (f : A -> nat) (l : list A) :
  Nat.max d (list_max (map (fun x => d + 1 + f x) l))
  = d + list_max (map (fun x => S (f x)) l).
Proof.
  unfold list_max in *.
  induction l as [|x l IH]; cbn [map fold_right]; lia.
Qed.

(** What one traversal of [getTreeStats] adds to the counters. *)
Lemma getTreeStats_traverse_spec (n : PrefixNode.t) :
  forall depth s,
    getTreeStats_traverse n depth s
    = mkStats (totalNodes s + List.length (nodesBelow n))
              (Nat.max (maxDepth s) (depth + depthBelow n))
              (multiChordCount s
               + (if depth =? 0 then 0
                  else List.length (PrefixNode.bindings n))
               + List.length (bindingsIn (PrefixNode.children n)))
              (singleChordCount s
               + if depth =? 0 then List.length (PrefixNode.bindings n)
                 else 0).
Proof.
  induction n as [chord children bindings fullPath IH] using node_ind.
  intros depth s.
  cbn [getTreeStats_traverse nodesBelow depthBelow PrefixNode.bindings
       PrefixNode.children List.length].
  assert (Hfold : forall s',
             fold_left
               (fun acc kv => getTreeStats_traverse (snd kv) (depth + 1) acc)
               children s'
             = mkStats
                 (totalNodes s' + List.length (nodesIn children))
                 (Nat.max (maxDepth s')
                    (list_max (map (fun kv => depth + 1 + depthBelow (snd kv))
                                   children)))
                 (multiChordCount s' + List.length (bindingsIn children))
                 (singleChordCount s')).
  { induction IH as [|kv l Hkv _ IHl]; intros s'.
    - destruct s'. simpl. f_equal; lia.
    - cbn [fold_left]. rewrite IHl, Hkv.
      replace (depth + 1 =? 0) with false
        by (symmetry; apply Nat.eqb_neq; lia).
      cbn [totalNodes maxDepth multiChordCount singleChordCount].
      unfold nodesIn, bindingsIn, list_max. cbn [flat_map map fold_right].
      rewrite !length_app, (bindingsBelow_unfold (snd kv)), length_app.
      unfold bindingsIn. f_equal; lia. }
  rewrite Hfold, visit_spec.
  cbn [totalNodes maxDepth multiChordCount singleChordCount].
  rewrite <- Nat.max_assoc, (list_max_shift depth).
  unfold nodesIn. f_equal; lia.
Qed.

Lemma getTreeStats_spec (roots : JSMap.t PrefixNode.t) :
  getTreeStats roots
  = mkStats (List.length (nodesIn roots))
            (list_max (map (fun kv => depthBelow (snd kv)) roots))
            (List.length
               (flat_map (fun kv => bindingsIn (PrefixNode.children (snd kv)))
                         roots))
            (List.length
               (flat_map (fun kv => PrefixNode.bindings (snd kv)) roots)).
Proof.
  unfold getTreeStats. rewrite fold_left_values.
  assert (H : forall s,
             fold_left (fun acc kv => getTreeStats_traverse (snd kv) 0 acc)
                       roots s
             = mkStats
                 (totalNodes s + List.length (nodesIn roots))
                 (Nat.max (maxDepth s)
                    (list_max (map (fun kv => depthBelow (snd kv)) roots)))
                 (multiChordCount s
                  + List.length
                      (flat_map
                         (fun kv => bindingsIn (PrefixNode.children (snd kv)))
                         roots))
                 (singleChordCount s
                  + List.length
                      (flat_map (fun kv => PrefixNode.bindings (snd kv))
                                roots))).
  { induction roots as [|kv m IH]; intros s.
    - destruct s. simpl. f_equal; lia.
    - cbn [fold_left]. rewrite IH, getTreeStats_traverse_spec.
      cbn [totalNodes maxDepth multiChordCount singleChordCount Nat.eqb].
      unfold nodesIn, list_max. cbn [flat_map map fold_right].
      rewrite !length_app. f_equal; lia. }
  rewrite H. reflexivity.
Qed.

Lemma bindingsIn_roots_split (roots : JSMap.t PrefixNode.t) :
  List.length (bindingsIn roots)
  = List.length (flat_map (fun kv => PrefixNode.bindings (snd kv)) roots)
    + List.length
        (flat_map (fun kv => bindingsIn (PrefixNode.children (snd kv))) roots).
Proof.
  unfold bindingsIn at 1.
  induction roots as [|kv m IH]; simpl; [reflexivity|].
  rewrite !length_app, IH, bindingsBelow_unfold, length_app. lia.
Qed.

Lemma flat_map_values {V B : Type} (f : V -> list B) (m : JSMap.t V) :
  flat_map f (JSMap.values m) = flat_map (fun kv => f (snd kv)) m.
Proof.
  induction m as [|kv m IH]; simpl; [reflexivity | now rewrite IH].
Qed.

(** X9.  The statistics of any tree: [totalNodes] is the number of its
    nodes, the two binding counters add up to the number of bindings
    [flattenTree] returns, [singleChordCount] is the number of bindings
    held by the root nodes, and there are at most [totalNodes] leaf
    nodes. *)
Theorem getTreeStats_counts :
  forall roots : JSMap.t PrefixNode.t,
    totalNodes (getTreeStats roots) = List.length (nodesIn roots)
    /\ singleChordCount (getTreeStats roots)
       + multiChordCount (getTreeStats roots)
       = List.length (flattenTree roots)
    /\ singleChordCount (getTreeStats roots)
       = List.length (flat_map PrefixNode.bindings (JSMap.values roots))
    /\ List.length (getLeafNodes roots) <= totalNodes (getTreeStats roots).
Proof.
  intros roots. rewrite getTreeStats_spec.
  cbn [totalNodes singleChordCount multiChordCount].
  split; [reflexivity|]. split; [|split].
  - rewrite flattenTree_spec. symmetry. apply bindingsIn_roots_split.
  - now rewrite flat_map_values.
  - rewrite getLeafNodes_spec. apply filter_length_le.
Qed.

Lemma nodesAtDepth_zero (n : PrefixNode.t) : nodesAtDepth n 0 = [n].
Proof. destruct n; reflexivity. Qed.

Lemma nodesAtDepth_succ (n : PrefixNode.t) (d : nat) :
  nodesAtDepth n (S d)
  = flat_map (fun kv => nodesAtDepth (snd kv) d) (PrefixNode.children n).
Proof. destruct n; reflexivity. Qed.

Lemma getNodesAtDepth_traverse_spec (depth : nat) (n : PrefixNode.t) :
  forall currentDepth nodes,
    currentDepth <= depth ->
    getNodesAtDepth_traverse depth n currentDepth nodes
    = nodes ++ nodesAtDepth n (depth - currentDepth).
Proof.
  induction n as [chord children bindings fullPath IH] using node_ind.
  intros currentDepth nodes Hle.
  cbn [getNodesAtDepth_traverse].
  destruct (currentDepth =? depth) eqn:E.
  - apply Nat.eqb_eq in E. subst. now rewrite Nat.sub_diag.
  - apply Nat.eqb_neq in E.
    replace (depth - currentDepth) with (S (depth - (currentDepth + 1)))
      by lia.
    rewrite nodesAtDepth_succ. cbn [PrefixNode.children].
    revert nodes.
    induction IH as [|kv l Hkv _ IHl]; intros nodes; simpl.
    + now rewrite app_nil_r.
    + rewrite Hkv by lia. rewrite IHl, <- app_assoc. reflexivity.
Qed.

Lemma getNodesAtDepth_spec (roots : JSMap.t PrefixNode.t) (depth : nat) :
  getNodesAtDepth roots depth
  = flat_map (fun kv => nodesAtDepth (snd kv) depth) roots.
Proof.
  unfold getNodesAtDepth. destruct depth as [|d].
  - cbn [Nat.eqb]. unfold JSMap.values.
    induction roots as [|kv m IH]; simpl; [reflexivity|].
    now rewrite nodesAtDepth_zero, IH.
  - cbn [Nat.eqb]. rewrite fold_left_values.
    rewrite <- (app_nil_l (flat_map _ roots)).
    generalize (@nil PrefixNode.t) as acc.
    induction roots as [|kv m IH]; intros acc; simpl.
    + now rewrite app_nil_r.
    + rewrite IH, getNodesAtDepth_traverse_spec by lia.
      rewrite Nat.sub_0_r, <- app_assoc. reflexivity.
Qed.

Lemma nodesAtDepth_children (d : nat) :
  forall n,
    nodesAtDepth n (S d)
    = flat_map (fun x => JSMap.values (PrefixNode.children x))
               (nodesAtDepth n d).
Proof.
  induction d as [|d IH]; intros n.
  - rewrite nodesAtDepth_succ, nodesAtDepth_zero. simpl.
    rewrite app_nil_r. unfold JSMap.values.
    induction (PrefixNode.children n) as [|kv l IHl]; simpl; [reflexivity|].
    now rewrite nodesAtDepth_zero, IHl.
  - rewrite (nodesAtDepth_succ n (S d)), (nodesAtDepth_succ n d).
    induction (PrefixNode.children n) as [|kv l IHl]; simpl; [reflexivity|].
    now rewrite flat_map_app, IH, IHl.
Qed.

Lemma flat_map_nil_iff {A B : Type} (f : A -> list B) (l : list A) :
  flat_map f l = [] <-> Forall (fun x => f x = []) l.
Proof.
  induction l as [|x l IH]; simpl.
  - split; [constructor | reflexivity].
  - split.
    + intros H. apply app_eq_nil in H. destruct H as [Hx Hl].
      constructor; [assumption | now apply IH].
    + intros H. inversion H as [|? ? Hx Hl]; subst.
      rewrite Hx. now apply IH.
Qed.

Lemma nodesAtDepth_nil_iff (n : PrefixNode.t) :
  forall d, nodesAtDepth n d = [] <-> depthBelow n < d.
Proof.
  induction n as [chord children bindings fullPath IH] using node_ind.
  intros [|d].
  - cbn [nodesAtDepth]. split; [discriminate | lia].
  - cbn [nodesAtDepth depthBelow].
    rewrite flat_map_nil_iff, Nat.lt_succ_r, list_max_le, Forall_map.
    rewrite !Forall_forall in *.
    split; intros H kv Hin.
    + apply Nat.le_succ_l, (IH kv Hin), H, Hin.
    + apply (IH kv Hin), Nat.le_succ_l, H, Hin.
Qed.

(** X10.  [getNodesAtDepth] goes down the tree one level at a time:
    depth 0 gives the root nodes, each further depth gives the children
    of the nodes of the depth before, in order; and it returns no node
    exactly when the tree is empty or the depth is beyond [maxDepth] of
    [getTreeStats]. *)
Theorem getNodesAtDepth_levels :
  forall (roots : JSMap.t PrefixNode.t) (depth : nat),
    getNodesAtDepth roots 0 = JSMap.values roots
    /\ getNodesAtDepth roots (S depth)
       = flat_map (fun n => JSMap.values (PrefixNode.children n))
                  (getNodesAtDepth roots depth)
    /\ (getNodesAtDepth roots depth = [] <->
        roots = [] \/ maxDepth (getTreeStats roots) < depth).
Proof.
  intros roots depth. split; [reflexivity|]. split.
  - rewrite !getNodesAtDepth_spec.
    induction roots as [|kv m IH]; simpl; [reflexivity|].
    now rewrite flat_map_app, nodesAtDepth_children, IH.
  - rewrite getNodesAtDepth_spec, getTreeStats_spec, flat_map_nil_iff.
    cbn [maxDepth].
    destruct roots as [|kv m].
    + split; [now left | constructor].
    + rewrite list_max_lt by discriminate.
      rewrite Forall_map.
      split.
      * intros H. right. eapply Forall_impl; [|exact H].
        intros x Hx. now apply nodesAtDepth_nil_iff.
      * intros [H|H]; [discriminate|].
        eapply Forall_impl; [|exact H].
        intros x Hx. now apply nodesAtDepth_nil_iff.
Qed.

(** ** Trees built by [buildPrefixTree] *)

Lemma get_In {V : Type} (k : string) (m : JSMap.t V) (v : V) :
  JSMap.get k m = Some v -> In (k, v) m.
Proof.
  induction m as [|[k' v'] m IH]; simpl; [discriminate|].
  destruct (String.eqb_spec k k') as [->|Hne].
  - intros [= ->]. now left.
  - intros H. right. now apply IH.
Qed.

Lemma get_set_same {V : Type} (k : string) (v : V) (m : JSMap.t V) :
  JSMap.get k (JSMap.set k v m) = Some v.
Proof.
  induction m as [|[k' v'] m IH]; simpl.
  - now rewrite String.eqb_refl.
  - destruct (String.eqb k k') eqn:E; simpl; rewrite E; [reflexivity | exact IH].
Qed.

Lemma get_set_other {V : Type} (k k' : string) (v : V) (m : JSMap.t V) :
  k' <> k -> JSMap.get k' (JSMap.set k v m) = JSMap.get k' m.
Proof.
  intros Hne.
  induction m as [|[k0 v0] m IH]; simpl.
  - apply String.eqb_neq in Hne. now rewrite Hne.
  - destruct (String.eqb_spec k k0) as [->|Hk]; simpl.
    + apply String.eqb_neq in Hne. now rewrite Hne.
    + now rewrite IH.
Qed.

(** Storing a node under [k] in a map, seen through a list-valued
    function [f] of the nodes: what [f] gives more on the new node than
    on the node found under [k] (or on a fresh node, when there is none)
    is what the map gains. *)
Lemma flat_map_set {B : Type} (f : PrefixNode.t -> list B)
      (extra : list B) (fresh v' : PrefixNode.t)
      (k : string) (m : JSMap.t PrefixNode.t) :
  f fresh = [] ->
  Permutation (f v')
              (extra ++ f (match JSMap.get k m with
                           | Some n => n
                           | None => fresh
                           end)) ->
  Permutation (flat_map (fun kv => f (snd kv)) (JSMap.set k v' m))
              (extra ++ flat_map (fun kv => f (snd kv)) m).
Proof.
  intros Hfresh.
  induction m as [|[k' v] m IH]; simpl; intros Hv'.
  - rewrite Hfresh in Hv'. now rewrite !app_nil_r in *.
  - destruct (String.eqb k k'); simpl.
    + rewrite Hv'. now rewrite app_assoc.
    + rewrite (IH Hv'). rewrite !app_assoc.
      apply Permutation_app_tail, Permutation_app_comm.
Qed.

Lemma list_max_set (h : PrefixNode.t -> nat) (v' : PrefixNode.t)
      (k : string) (m : JSMap.t PrefixNode.t) :
  (forall old, JSMap.get k m = Some old -> h old <= h v') ->
  list_max (map (fun kv => h (snd kv)) (JSMap.set k v' m))
  = Nat.max (list_max (map (fun kv => h (snd kv)) m)) (h v').
Proof.
  unfold list_max.
  induction m as [|[k' v] m IH]; simpl; [intros _; lia|].
  destruct (String.eqb k k'); simpl; intros Hold.
  - specialize (Hold v eq_refl). lia.
  - rewrite (IH Hold). lia.
Qed.

Lemma get_le_list_max (h : PrefixNode.t -> nat) (k : string)
      (m : JSMap.t PrefixNode.t) (n : PrefixNode.t) :
  JSMap.get k m = Some n ->
  h n <= list_max (map (fun kv => h (snd kv)) m).
Proof.
  intros Hget. apply get_In in Hget.
  assert (Hle : list_max (map (fun kv => h (snd kv)) m)
                <= list_max (map (fun kv => h (snd kv)) m)) by lia.
  rewrite list_max_le, Forall_map, Forall_forall in Hle.
  exact (Hle _ Hget).
Qed.

Lemma bindings_descend (binding : ParsedKeybinding.t)
      (chords : list KeyChord.t) (fullPath : list string)
      (currentNode : PrefixNode.t) :
  PrefixNode.bindings (descend chords fullPath binding currentNode)
  = match chords with
    | [] => PrefixNode.bindings currentNode ++ [binding]
    | _ :: _ => PrefixNode.bindings currentNode
    end.
Proof. destruct chords; reflexivity. Qed.

Lemma depthBelow_descend (binding : ParsedKeybinding.t)
      (chords : list KeyChord.t) :
  forall fullPath currentNode,
    depthBelow (descend chords fullPath binding currentNode)
    = Nat.max (depthBelow currentNode) (List.length chords).
Proof.
  induction chords as [|chord rest IH]; intros fullPath currentNode.
  - simpl. rewrite !depthBelow_unfold. simpl. lia.
  - cbn [descend List.length]. unfold withChildren.
    rewrite (depthBelow_unfold (PrefixNode.mk _ _ _ _)).
    cbn [PrefixNode.children].
    rewrite (list_max_set (fun n => S (depthBelow n))).
    + rewrite IH, <- depthBelow_unfold.
      destruct (JSMap.get _ (PrefixNode.children currentNode)) as [old|] eqn:E.
      * pose proof (get_le_list_max (fun n => S (depthBelow n)) _ _ _ E) as Hle.
        rewrite <- depthBelow_unfold in Hle. lia.
      * unfold createNode. rewrite (depthBelow_unfold (PrefixNode.mk _ _ _ _)).
        simpl. lia.
    + intros old Hget. rewrite Hget, IH. lia.
Qed.

Lemma chordCount_pos (b : ParsedKeybinding.t) : 1 <= chordCount b.
Proof.
  unfold chordCount.
  pose proof (parseKeySequence_not_nil (ParsedKeybinding.key b)) as H.
  destruct (parseKeySequence (ParsedKeybinding.key b));
    [now contradiction H | simpl; lia].
Qed.

Lemma rootBindings_addBinding (roots : JSMap.t PrefixNode.t)
      (binding : ParsedKeybinding.t) :
  Permutation
    (flat_map (fun kv => PrefixNode.bindings (snd kv))
              (addBinding roots binding))
    ((if hasKey binding && (chordCount binding =? 1) then [binding] else [])
     ++ flat_map (fun kv => PrefixNode.bindings (snd kv)) roots).
Proof.
  unfold addBinding, hasKey, chordCount.
  destruct (JS.truthy (ParsedKeybinding.key binding)); simpl; [|reflexivity].
  pose proof (parseKeySequence_not_nil (ParsedKeybinding.key binding)) as Hne.
  destruct (parseKeySequence (ParsedKeybinding.key binding))
    as [|chord0 rest]; [now contradiction Hne|].
  apply (flat_map_set PrefixNode.bindings _
           (createNode (KeyChord.raw chord0) [KeyChord.raw chord0]));
    [reflexivity|].
  rewrite bindings_descend.
  destruct rest; simpl; [|reflexivity].
  symmetry. apply Permutation_cons_append.
Qed.

Lemma rootDepth_addBinding (roots : JSMap.t PrefixNode.t)
      (binding : ParsedKeybinding.t) :
  list_max (map (fun kv => depthBelow (snd kv)) (addBinding roots binding))
  = Nat.max (list_max (map (fun kv => depthBelow (snd kv)) roots))
            (if hasKey binding then chordCount binding - 1 else 0).
Proof.
  unfold addBinding, hasKey, chordCount.
  destruct (JS.truthy (ParsedKeybinding.key binding)); simpl; [|lia].
  pose proof (parseKeySequence_not_nil (ParsedKeybinding.key binding)) as Hne.
  destruct (parseKeySequence (ParsedKeybinding.key binding))
    as [|chord0 rest]; [now contradiction Hne|].
  rewrite (list_max_set depthBelow).
  - rewrite depthBelow_descend. cbn [List.length].
    destruct (JSMap.get _ roots) as [old|] eqn:E.
    + pose proof (get_le_list_max depthBelow _ _ _ E). lia.
    + unfold createNode. rewrite (depthBelow_unfold (PrefixNode.mk _ _ _ _)).
      simpl. lia.
  - intros old Hget. rewrite Hget, depthBelow_descend. lia.
Qed.

Lemma filter_split_length {A : Type} (p q : A -> bool) (l : list A) :
  List.length (filter p l)
  = List.length (filter (fun x => p x && q x) l)
    + List.length (filter (fun x => p x && negb (q x)) l).
Proof.
  induction l as [|x l IH]; simpl; [reflexivity|].
  destruct (p x), (q x); simpl; lia.
Qed.

Lemma rootBindings_fold (bindings : list ParsedKeybinding.t) :
  forall roots,
    Permutation
      (flat_map (fun kv => PrefixNode.bindings (snd kv))
                (fold_left addBinding bindings roots))
      (flat_map (fun kv => PrefixNode.bindings (snd kv)) roots
       ++ filter (fun b => hasKey b && (chordCount b =? 1)) bindings).
Proof.
  induction bindings as [|b bs IH]; intros roots; simpl.
  - now rewrite app_nil_r.
  - rewrite IH, rootBindings_addBinding.
    destruct (hasKey b && (chordCount b =? 1)); simpl; [|reflexivity].
    apply Permutation_middle.
Qed.

Lemma rootDepth_fold (bindings : list ParsedKeybinding.t) :
  forall roots,
    list_max (map (fun kv => depthBelow (snd kv))
                  (fold_left addBinding bindings roots))
    = Nat.max
        (list_max (map (fun kv => depthBelow (snd kv)) roots))
        (list_max (map (fun b => chordCount b - 1)
                       (filter hasKey bindings))).
Proof.
  induction bindings as [|b bs IH]; intros roots; simpl.
  - unfold list_max. simpl. lia.
  - rewrite IH, rootDepth_addBinding.
    destruct (hasKey b); unfold list_max; simpl; lia.
Qed.

Lemma buildPrefixTree_stats :
  forall bindings : list ParsedKeybinding.t,
    singleChordCount (getTreeStats (buildPrefixTree bindings))
    = List.length
        (filter (fun b => hasKey b && (chordCount b =? 1)) bindings)
    /\ multiChordCount (getTreeStats (buildPrefixTree bindings))
       = List.length
           (filter (fun b => hasKey b && (1 <? chordCount b)) bindings)
    /\ maxDepth (getTreeStats (buildPrefixTree bindings))
       = list_max (map (fun b => chordCount b - 1) (filter hasKey bindings)).
Proof.
  intros bindings.
  pose proof (rootBindings_fold bindings) as Hroot.
  pose proof (rootDepth_fold bindings) as Hdepth.
  pose proof (bindingsIn_roots_split (buildPrefixTree bindings)) as Hsplit.
  pose proof (bindingsIn_fold_addBinding bindings []) as Hall.
  apply Permutation_length in Hall. simpl in Hall.
  fold (buildPrefixTree bindings) in Hall.
  specialize (Hroot []). apply Permutation_length in Hroot.
  simpl in Hroot. fold (buildPrefixTree bindings) in Hroot.
  specialize (Hdepth []). fold (buildPrefixTree bindings) in Hdepth.
  rewrite getTreeStats_spec.
  cbn [singleChordCount multiChordCount maxDepth].
  split; [exact Hroot|]. split.
  - pose proof (filter_split_length hasKey (fun b => chordCount b =? 1)
                  bindings) as Hfilter.
    replace (filter (fun b => hasKey b && (1 <? chordCount b)) bindings)
      with (filter (fun b => hasKey b && negb (chordCount b =? 1)) bindings).
    + fold hasKey in Hall. lia.
    + apply filter_ext. intros b. f_equal.
      pose proof (chordCount_pos b).
      destruct (chordCount b =? 1) eqn:E1, (1 <? chordCount b) eqn:E2;
        try reflexivity.
      * apply Nat.eqb_eq in E1. apply Nat.ltb_lt in E2. lia.
      * apply Nat.eqb_neq in E1. apply Nat.ltb_ge in E2. lia.
  - rewrite Hdepth. unfold list_max at 1. simpl. reflexivity.
Qed.

(** X11.  The statistics of a tree built from a binding list, read off
    the list: [singleChordCount] is the number of bindings with a
    non-empty key and exactly one chord, [multiChordCount] the number of
    those with more than one chord, and [maxDepth] is one less than the
    largest number of chords of a binding with a non-empty key (0 when
    there is no such binding). *)
Theorem getTreeStats_buildPrefixTree :
  forall bindings : list ParsedKeybinding.t,
    singleChordCount (getTreeStats (buildPrefixTree bindings))
    = List.length
        (filter (fun b => hasKey b && (chordCount b =? 1)) bindings)
    /\ multiChordCount (getTreeStats (buildPrefixTree bindings))
       = List.length
           (filter (fun b => hasKey b && (1 <? chordCount b)) bindings)
    /\ maxDepth (getTreeStats (buildPrefixTree bindings))
       = list_max (map (fun b => chordCount b - 1) (filter hasKey bindings)).
Proof. exact buildPrefixTree_stats. Qed.

Lemma lookupBelow_descend (binding : ParsedKeybinding.t)
      (chords : list KeyChord.t) :
  forall fullPath currentNode,
    exists n,
      lookupBelow
        (map (fun chord => normalizeChordKey (KeyChord.raw chord)) chords)
        (descend chords fullPath binding currentNode) = Some n
      /\ In binding (PrefixNode.bindings n).
Proof.
  induction chords as [|chord rest IH]; intros fullPath currentNode.
  - exists (pushBinding currentNode binding). split; [reflexivity|].
    simpl. apply in_or_app. right. now left.
  - cbn [descend map lookupBelow]. unfold withChildren.
    cbn [PrefixNode.children]. rewrite get_set_same. apply IH.
Qed.

Lemma nodeKept_refl (n : PrefixNode.t) : nodeKept n n.
Proof. repeat split. apply incl_refl. Qed.

Lemma nodeKept_trans (n1 n2 n3 : PrefixNode.t) :
  nodeKept n1 n2 -> nodeKept n2 n3 -> nodeKept n1 n3.
Proof.
  intros (Hc1 & Hp1 & Hb1) (Hc2 & Hp2 & Hb2). repeat split.
  - now rewrite Hc2.
  - now rewrite Hp2.
  - intros b Hb. apply Hb2, Hb1, Hb.
Qed.

Lemma nodeGrows_descend (binding : ParsedKeybinding.t)
      (chords : list KeyChord.t) :
  forall fullPath currentNode,
    nodeGrows currentNode (descend chords fullPath binding currentNode).
Proof.
  induction chords as [|chord rest IH];
    intros fullPath currentNode keys found Hfound.
  - destruct keys as [|k ks].
    + injection Hfound as <-. eexists. split; [reflexivity|].
      repeat split. simpl. apply incl_appl, incl_refl.
    + exists found. split; [exact Hfound | apply nodeKept_refl].
  - cbn [descend]. unfold withChildren.
    destruct keys as [|k ks].
    + injection Hfound as <-. eexists. split; [reflexivity|].
      repeat split. apply incl_refl.
    + cbn [lookupBelow PrefixNode.children] in *.
      destruct (String.eqb_spec k (normalizeChordKey (KeyChord.raw chord)))
        as [->|Hne].
      * rewrite get_set_same.
        destruct (JSMap.get _ (PrefixNode.children currentNode))
          as [child|]; [|discriminate].
        exact (IH _ child ks found Hfound).
      * rewrite (get_set_other _ _ _ _ Hne).
        destruct (JSMap.get k (PrefixNode.children currentNode));
          [|discriminate].
        exists found. split; [exact Hfound | apply nodeKept_refl].
Qed.

Lemma treeGrows_addBinding (roots : JSMap.t PrefixNode.t)
      (binding : ParsedKeybinding.t) :
  treeGrows roots (addBinding roots binding).
Proof.
  intros keys found Hfound. unfold addBinding.
  destruct (negb (JS.truthy (ParsedKeybinding.key binding)));
    [exists found; split; [exact Hfound | apply nodeKept_refl]|].
  destruct (parseKeySequence (ParsedKeybinding.key binding))
    as [|chord0 rest];
    [exists found; split; [exact Hfound | apply nodeKept_refl]|].
  destruct keys as [|k ks]; [discriminate|].
  cbn [lookupPath] in *.
  destruct (String.eqb_spec k (normalizeChordKey (KeyChord.raw chord0)))
    as [->|Hne].
  - rewrite get_set_same.
    destruct (JSMap.get _ roots) as [root|]; [|discriminate].
    exact (nodeGrows_descend binding rest _ root ks found Hfound).
  - rewrite (get_set_other _ _ _ _ Hne).
    destruct (JSMap.get k roots); [|discriminate].
    exists found. split; [exact Hfound | apply nodeKept_refl].
Qed.

Lemma heldAt_addBinding (roots : JSMap.t PrefixNode.t)
      (binding : ParsedKeybinding.t) :
  hasKey binding = true ->
  heldAt binding (canonicalSequence (ParsedKeybinding.key binding))
         (addBinding roots binding).
Proof.
  unfold hasKey, heldAt, addBinding, canonicalSequence. intros ->.
  cbn [negb].
  destruct (parseKeySequence (ParsedKeybinding.key binding))
    as [|chord0 rest] eqn:E;
    [now contradiction (parseKeySequence_not_nil _ E)|].
  cbn [map lookupPath]. rewrite get_set_same.
  apply lookupBelow_descend.
Qed.

Lemma heldAt_fold (b : ParsedKeybinding.t) (keys : list string)
      (bindings : list ParsedKeybinding.t) :
  forall roots,
    heldAt b keys roots -> heldAt b keys (fold_left addBinding bindings roots).
Proof.
  induction bindings as [|x bs IH]; intros roots H; [exact H|].
  cbn [fold_left]. apply IH.
  destruct H as (n & Hn & Hin).
  destruct (treeGrows_addBinding roots x keys n Hn)
    as (n' & Hn' & _ & _ & Hincl).
  exists n'. split; [exact Hn' | now apply Hincl].
Qed.

Lemma heldAt_buildPrefixTree (bindings : list ParsedKeybinding.t)
      (b : ParsedKeybinding.t) :
  In b bindings ->
  ParsedKeybinding.key b <> EmptyString ->
  heldAt b (canonicalSequence (ParsedKeybinding.key b))
         (buildPrefixTree bindings).
Proof.
  intros Hin Hkey. apply truthy_iff in Hkey. unfold buildPrefixTree.
  generalize (@nil (string * PrefixNode.t)) as roots.
  induction bindings as [|x bs IH]; intros roots; [now contradiction Hin|].
  cbn [fold_left]. destruct Hin as [->|Hin].
  - apply heldAt_fold, heldAt_addBinding, Hkey.
  - now apply IH.
Qed.

(** X12.  Insertion and lookup agree: in the tree built from a binding
    list, [findNode] with the key of any binding of the list that has a
    non-empty key returns a node, and that node holds the binding. *)
Theorem findNode_buildPrefixTree :
  forall (bindings : list ParsedKeybinding.t) (b : ParsedKeybinding.t),
    In b bindings ->
    ParsedKeybinding.key b <> EmptyString ->
    exists n,
      findNode (buildPrefixTree bindings) (ParsedKeybinding.key b) = Some n
      /\ In b (PrefixNode.bindings n).
Proof.
  intros bindings b Hin Hkey.
  rewrite findNode_lookupPath.
  exact (heldAt_buildPrefixTree bindings b Hin Hkey).
Qed.

Lemma findNode_buildPrefixTree_witness :
  let saveAll :=
    ParsedKeybinding.mk "cmd+k cmd+s" "workbench.action.files.saveAll" None
      false "VS Code" None (Some "Workbench") true (Some []) in
  let other :=
    ParsedKeybinding.mk "Cmd+K  CMD+S" "x" None false "VS Code" None
      (Some "Other") true (Some []) in
  exists n,
    findNode (buildPrefixTree [saveAll; other]) "cmd+k cmd+s" = Some n
    /\ In saveAll (PrefixNode.bindings n).
Proof.
  intros saveAll other.
  apply (findNode_buildPrefixTree [saveAll; other] saveAll).
  - now left.
  - discriminate.
Defined.

Lemma nodeOK_unfold (prefix : list string) (k : string) (n : PrefixNode.t) :
  nodeOK prefix k n
  <-> normalizeChordKey (PrefixNode.chord n) = k
      /\ map normalizeChordKey (PrefixNode.fullPath n) = prefix ++ [k]
      /\ last (PrefixNode.fullPath n) EmptyString = PrefixNode.chord n
      /\ Forall (fun b => canonicalSequence (ParsedKeybinding.key b)
                          = prefix ++ [k])
                (PrefixNode.bindings n)
      /\ treeOK (prefix ++ [k]) (PrefixNode.children n).
Proof.
  destruct n as [chord children bindings fullPath].
  cbn [nodeOK PrefixNode.chord PrefixNode.children PrefixNode.bindings
       PrefixNode.fullPath].
  assert (Hall : (fix all (l : list (string * PrefixNode.t)) : Prop :=
                    match l with
                    | [] => True
                    | kv :: l' =>
                        nodeOK (prefix ++ [k]) (fst kv) (snd kv) /\ all l'
                    end) children
                 <-> treeOK (prefix ++ [k]) children).
  { unfold treeOK. induction children as [|kv l IH].
    - split; [constructor | trivial].
    - split.
      + intros [H1 H2]. constructor; [exact H1 | now apply IH].
      + intros H. inversion H; subst. split; [assumption | now apply IH]. }
  rewrite Hall. reflexivity.
Qed.

Lemma treeOK_set (prefix : list string) (k : string) (v : PrefixNode.t)
      (m : JSMap.t PrefixNode.t) :
  treeOK prefix m -> nodeOK prefix k v -> treeOK prefix (JSMap.set k v m).
Proof.
  unfold treeOK. intros Hm Hv.
  induction Hm as [|[k' v'] m Hkv Hm IH]; simpl.
  - now repeat constructor.
  - destruct (String.eqb_spec k k') as [->|Hne]; constructor; assumption.
Qed.

Lemma treeOK_get (prefix : list string) (k : string)
      (m : JSMap.t PrefixNode.t) (n : PrefixNode.t) :
  treeOK prefix m -> JSMap.get k m = Some n -> nodeOK prefix k n.
Proof.
  unfold treeOK. intros Hm Hget. apply get_In in Hget.
  rewrite Forall_forall in Hm. exact (Hm _ Hget).
Qed.

Lemma nodeOK_createNode (prefix : list string) (fullPath : list string)
      (raw : string) :
  map normalizeChordKey fullPath = prefix ->
  nodeOK prefix (normalizeChordKey raw) (createNode raw (fullPath ++ [raw])).
Proof.
  intros Hpath. apply nodeOK_unfold. unfold createNode.
  cbn [PrefixNode.chord PrefixNode.children PrefixNode.bindings
       PrefixNode.fullPath].
  repeat split.
  - rewrite map_app, Hpath. reflexivity.
  - apply last_last.
  - constructor.
  - constructor.
Qed.

Lemma nodeOK_descend (binding : ParsedKeybinding.t)
      (chords : list KeyChord.t) :
  forall fullPath currentNode prefix k,
    nodeOK prefix k currentNode ->
    map normalizeChordKey fullPath = prefix ++ [k] ->
    canonicalSequence (ParsedKeybinding.key binding)
    = (prefix ++ [k])
      ++ map (fun chord => normalizeChordKey (KeyChord.raw chord)) chords ->
    nodeOK prefix k (descend chords fullPath binding currentNode).
Proof.
  induction chords as [|chord rest IH];
    intros fullPath currentNode prefix k Hnode Hpath Hcanon.
  - apply nodeOK_unfold in Hnode.
    destruct Hnode as (Hk & Hfull & Hlast & Hbind & Hchildren).
    apply nodeOK_unfold. simpl. repeat split; try assumption.
    apply Forall_app. split; [assumption|].
    constructor; [|constructor]. simpl in Hcanon.
    now rewrite app_nil_r in Hcanon.
  - apply nodeOK_unfold in Hnode.
    destruct Hnode as (Hk & Hfull & Hlast & Hbind & Hchildren).
    apply nodeOK_unfold. cbn [descend]. unfold withChildren.
    cbn [PrefixNode.chord PrefixNode.children PrefixNode.bindings
         PrefixNode.fullPath].
    repeat split; try assumption.
    apply treeOK_set; [assumption|].
    apply IH.
    + destruct (JSMap.get _ (PrefixNode.children currentNode))
        as [child|] eqn:E.
      * exact (treeOK_get _ _ _ _ Hchildren E).
      * now apply nodeOK_createNode.
    + rewrite map_app, Hpath. reflexivity.
    + rewrite Hcanon. cbn [map].
      now rewrite <- (app_assoc (prefix ++ [k]) [_] _).
Qed.

Lemma treeOK_addBinding (roots : JSMap.t PrefixNode.t)
      (binding : ParsedKeybinding.t) :
  treeOK [] roots -> treeOK [] (addBinding roots binding).
Proof.
  intros Hroots. unfold addBinding.
  destruct (negb (JS.truthy (ParsedKeybinding.key binding))); [assumption|].
  destruct (parseKeySequence (ParsedKeybinding.key binding))
    as [|chord0 rest] eqn:E; [assumption|].
  apply treeOK_set; [assumption|].
  apply nodeOK_descend.
  - destruct (JSMap.get _ roots) as [root|] eqn:Hget.
    + exact (treeOK_get _ _ _ _ Hroots Hget).
    + exact (nodeOK_createNode [] [] (KeyChord.raw chord0) eq_refl).
  - reflexivity.
  - unfold canonicalSequence. rewrite E. reflexivity.
Qed.

Lemma treeOK_buildPrefixTree (bindings : list ParsedKeybinding.t) :
  treeOK [] (buildPrefixTree bindings).
Proof.
  unfold buildPrefixTree.
  assert (H : forall roots,
             treeOK [] roots -> treeOK [] (fold_left addBinding bindings roots)).
  { induction bindings as [|b bs IH]; intros roots Hroots; [assumption|].
    cbn [fold_left]. apply IH, treeOK_addBinding, Hroots. }
  apply H. constructor.
Qed.

Lemma lookupBelow_nodeOK (keys : list string) :
  forall prefix k n found,
    nodeOK prefix k n ->
    lookupBelow keys n = Some found ->
    exists prefix' k',
      prefix' ++ [k'] = (prefix ++ [k]) ++ keys /\ nodeOK prefix' k' found.
Proof.
  induction keys as [|key ks IH]; intros prefix k n found Hn Hfound.
  - injection Hfound as <-. exists prefix, k.
    split; [now rewrite app_nil_r | assumption].
  - cbn [lookupBelow] in Hfound.
    destruct (JSMap.get key (PrefixNode.children n)) as [child|] eqn:E;
      [|discriminate].
    apply nodeOK_unfold in Hn.
    destruct Hn as (_ & _ & _ & _ & Hchildren).
    pose proof (treeOK_get _ _ _ _ Hchildren E) as Hchild.
    destruct (IH _ _ _ _ Hchild Hfound) as (prefix' & k' & Heq & Hok).
    exists prefix', k'. split; [|assumption].
    rewrite Heq, <- !app_assoc. reflexivity.
Qed.

Lemma lookupPath_nodeOK (keys : list string) (roots : JSMap.t PrefixNode.t)
      (found : PrefixNode.t) :
  treeOK [] roots ->
  lookupPath keys roots = Some found ->
  exists prefix k, prefix ++ [k] = keys /\ nodeOK prefix k found.
Proof.
  intros Hroots Hfound.
  destruct keys as [|key ks]; [discriminate|].
  cbn [lookupPath] in Hfound.
  destruct (JSMap.get key roots) as [root|] eqn:E; [|discriminate].
  pose proof (treeOK_get _ _ _ _ Hroots E) as Hroot.
  destruct (lookupBelow_nodeOK ks _ _ _ _ Hroot Hfound)
    as (prefix & k & Heq & Hok).
  exists prefix, k. split; [exact Heq | exact Hok].
Qed.

(** X13.  What [findNode] finds in a built tree.  The node returned for
    a key sequence has the canonical chord sequence of that key sequence
    as the canonical keys of its [fullPath], its [fullPath] ends with its
    own chord, and each binding it holds has the same canonical chord
    sequence as the key sequence looked up. *)
Theorem findNode_node_contents :
  forall (bindings : list ParsedKeybinding.t) (keySequence : string)
         (n : PrefixNode.t),
    findNode (buildPrefixTree bindings) keySequence = Some n ->
    map normalizeChordKey (PrefixNode.fullPath n)
    = canonicalSequence keySequence
    /\ last (PrefixNode.fullPath n) EmptyString = PrefixNode.chord n
    /\ Forall (fun b => canonicalSequence (ParsedKeybinding.key b)
                        = canonicalSequence keySequence)
              (PrefixNode.bindings n).
Proof.
  intros bindings keySequence n Hfind.
  rewrite findNode_lookupPath in Hfind.
  destruct (lookupPath_nodeOK _ _ _ (treeOK_buildPrefixTree bindings) Hfind)
    as (prefix & k & Heq & Hok).
  apply nodeOK_unfold in Hok.
  destruct Hok as (_ & Hfull & Hlast & Hbind & _).
  rewrite Heq in Hfull, Hbind. repeat split; assumption.
Qed.

Lemma findNode_node_contents_witness :
  let saveAll :=
    ParsedKeybinding.mk "cmd+k cmd+s" "workbench.action.files.saveAll" None
      false "VS Code" None (Some "Workbench") true (Some []) in
  let other :=
    ParsedKeybinding.mk "Cmd+K  CMD+S" "x" None false "VS Code" None
      (Some "Other") true (Some []) in
  let n := PrefixNode.mk "cmd+s" [] [saveAll; other] ["cmd+k"; "cmd+s"] in
  Forall (fun b => canonicalSequence (ParsedKeybinding.key b)
                   = canonicalSequence "CMD+K cmd+s")
         (PrefixNode.bindings n).
Proof.
  intros saveAll other n.
  exact (proj2 (proj2 (findNode_node_contents [saveAll; other]
                         "CMD+K cmd+s" n eq_refl))).
Defined.

(** ** The live chord tracker, continued *)

(** An invariant of a tracker over a property of its states: the
    property holds of the new tracker and every event keeps it. *)
Lemma trackerAfter_invariant (P : LiveChordTracker.t -> Prop) :
  P create ->
  (forall s e, P s -> P (trackerStep s e)) ->
  forall events, P (trackerAfter events).
Proof.
  intros Hcreate Hstep events. unfold trackerAfter.
  generalize create, Hcreate.
  induction events as [|e events IH]; intros s Hs; [exact Hs|].
  cbn [fold_left]. apply IH, Hstep, Hs.
Qed.

(** At most one timeout is pending, and the field [resetTimer] holds
    its handle. *)
Definition oneTimer (s : LiveChordTracker.t) : Prop :=
  pendingTimers s = []
  \/ exists h, pendingTimers s = [h] /\ resetTimer s = Some h.

Lemma clearTimeout_single (h : nat) : clearTimeout h [h] = [].
Proof. unfold clearTimeout. simpl. now rewrite Nat.eqb_refl. Qed.

Lemma oneTimer_cleared (s : LiveChordTracker.t) :
  oneTimer s ->
  match resetTimer s with
  | Some h => clearTimeout h (pendingTimers s)
  | None => pendingTimers s
  end = [].
Proof.
  intros [Hnil | (h & Hpending & Hreset)].
  - rewrite Hnil. now destruct (resetTimer s).
  - rewrite Hreset, Hpending. apply clearTimeout_single.
Qed.

Lemma oneTimer_step (s : LiveChordTracker.t) (e : TrackerEvent) :
  oneTimer s -> oneTimer (trackerStep s e).
Proof.
  intros H. destruct e as [| |chord| |h|]; cbn [trackerStep].
  - unfold resolveWebviewView. now destruct (isActive s).
  - unfold toggle. destruct (isActive s).
    + left. unfold deactivate. cbn [pendingTimers].
      now apply oneTimer_cleared.
    + exact H.
  - unfold onKeypressMessage, handleKeyPress.
    destruct (negb (JS.truthy chord)); [exact H|].
    right. exists (nextTimer s). cbn [pendingTimers resetTimer].
    now rewrite (oneTimer_cleared s H).
  - exact H.
  - unfold timerFires.
    destruct (existsb (Nat.eqb h) (pendingTimers s)) eqn:E; [|exact H].
    left. destruct H as [Hnil | (h' & Hpending & _)].
    + rewrite Hnil in E. discriminate.
    + rewrite Hpending in E. simpl in E. rewrite orb_false_r in E.
      apply Nat.eqb_eq in E. subst h'.
      unfold resetSequence. cbn [isActive].
      destruct (negb (isActive s)); cbn [pendingTimers];
        rewrite Hpending; apply clearTimeout_single.
  - left. unfold dispose, deactivate. cbn [pendingTimers].
    now apply oneTimer_cleared.
Qed.

(** X14.  Whatever happens to a tracker after its creation (the view is
    resolved, live mode is toggled, the webview reports key presses or a
    reset, timeouts fire, the tracker is disposed), at most one timeout
    is pending, and a pending timeout is the one whose handle is in
    [resetTimer]. *)
Theorem at_most_one_pending_timer :
  forall events : list TrackerEvent,
    List.length (pendingTimers (trackerAfter events)) <= 1
    /\ Forall (fun h => resetTimer (trackerAfter events) = Some h)
              (pendingTimers (trackerAfter events)).
Proof.
  intros events.
  assert (H : oneTimer (trackerAfter events)).
  { apply trackerAfter_invariant; [now left | intros s e; apply oneTimer_step]. }
  destruct H as [Hnil | (h & Hpending & Hreset)].
  - rewrite Hnil. split; [simpl; lia | constructor].
  - rewrite Hpending. split; [simpl; lia | now repeat constructor].
Qed.

(** X15.  Turning live mode off, or disposing of the tracker, at any
    point of its life leaves no timeout pending, an empty sequence and an
    empty sequence as the last notification; a timeout that fires
    afterwards changes nothing. *)
Theorem deactivate_leaves_nothing_pending :
  forall (events : list TrackerEvent) (h : nat),
    let s := deactivate (trackerAfter events) in
    isLiveMode s = false
    /\ getCurrentSequence s = []
    /\ pendingTimers s = []
    /\ resetTimer s = None
    /\ emitted s = emitted (trackerAfter events) ++ [[]]
    /\ timerFires h s = s.
Proof.
  intros events h s.
  assert (H : oneTimer (trackerAfter events)).
  { apply trackerAfter_invariant; [now left | intros s0 e; apply oneTimer_step]. }
  assert (Hpending : pendingTimers s = []).
  { subst s. unfold deactivate. cbn [pendingTimers].
    now apply oneTimer_cleared. }
  repeat split; try reflexivity; try assumption.
  unfold timerFires. now rewrite Hpending.
Qed.

(** The current sequence is empty or the last sequence notified, and
    holds no empty chord. *)
Definition notified (s : LiveChordTracker.t) : Prop :=
  (currentChordSequence s = []
   \/ last (emitted s) [] = currentChordSequence s)
  /\ Forall (fun chord => chord <> EmptyString) (currentChordSequence s).

Lemma notified_step (s : LiveChordTracker.t) (e : TrackerEvent) :
  notified s -> notified (trackerStep s e).
Proof.
  intros [Hseq Hchords].
  assert (Hempty : forall a r p n em,
             notified (LiveChordTracker.mk a [] r p n em)).
  { intros. split; [now left | constructor]. }
  destruct e as [| |chord| |h|]; cbn [trackerStep].
  - unfold resolveWebviewView. destruct (negb (isActive s)); now split.
  - unfold toggle, deactivate, activate. destruct (isActive s); apply Hempty.
  - unfold onKeypressMessage, handleKeyPress.
    destruct (JS.truthy chord) eqn:E; cbn [negb]; [|now split].
    split; cbn [currentChordSequence emitted].
    + right. apply last_last.
    + apply Forall_app. split; [assumption|].
      constructor; [now apply truthy_iff | constructor].
  - apply Hempty.
  - unfold timerFires, resetSequence.
    destruct (existsb (Nat.eqb h) (pendingTimers s)); [|now split].
    cbn [isActive]. destruct (negb (isActive s)); [now split | apply Hempty].
  - apply Hempty.
Qed.

(** X16.  At every point of a tracker's life the current sequence holds
    no empty chord, and it is either empty or the very sequence of the
    last notification: subscribers are never behind a non-empty
    sequence. *)
Theorem sequence_is_last_notification :
  forall events : list TrackerEvent,
    let s := trackerAfter events in
    Forall (fun chord => chord <> EmptyString) (getCurrentSequence s)
    /\ (getCurrentSequence s = []
        \/ last (emitted s) [] = getCurrentSequence s).
Proof.
  intros events s.
  assert (H : notified s).
  { apply trackerAfter_invariant; [|intros s0 e; apply notified_step].
    split; [now left | constructor]. }
  destruct H as [Hseq Hchords]. split; assumption.
Qed.

Lemma join_snoc (sep : string) (l : list string) (x : string) :
  l <> [] ->
  JS.join sep (l ++ [x]) = (JS.join sep l ++ sep ++ x)%string.
Proof.
  induction l as [|y l IH]; intros Hne; [now contradiction Hne|].
  destruct l as [|z l'].
  - reflexivity.
  - change (JS.join sep ((y :: z :: l') ++ [x]))
      with (y ++ sep ++ JS.join sep ((z :: l') ++ [x]))%string.
    rewrite (IH ltac:(discriminate)).
    change (JS.join sep (y :: z :: l'))
      with (y ++ sep ++ JS.join sep (z :: l'))%string.
    now rewrite !string_append_assoc.
Qed.

Lemma startsWith_append (a b : string) : JS.startsWith a (a ++ b) = true.
Proof. apply startsWith_iff. now exists b. Qed.

Lemma filter_filter_implied {A : Type} (p q : A -> bool) (l : list A) :
  (forall x, q x = true -> p x = true) ->
  filter q (filter p l) = filter q l.
Proof.
  intros Himp. induction l as [|x l IH]; simpl; [reflexivity|].
  destruct (p x) eqn:Hp; simpl.
  - now rewrite IH.
  - destruct (q x) eqn:Hq; [|exact IH].
    rewrite (Himp x Hq) in Hp. discriminate.
Qed.

(** X17.  A further key press can only narrow the live filter: the
    bindings kept after the key press are the bindings that the filter
    after the key press keeps among those kept before it. *)
Theorem filterBindings_narrows :
  forall (s : LiveChordTracker.t) (chord : string)
         (bindings : list ParsedKeybinding.t),
    filterBindings (handleKeyPress chord s) bindings
    = filterBindings (handleKeyPress chord s) (filterBindings s bindings)
    /\ incl (filterBindings (handleKeyPress chord s) bindings)
            (filterBindings s bindings).
Proof.
  intros s chord bindings.
  assert (Heq : filterBindings (handleKeyPress chord s) bindings
                = filterBindings (handleKeyPress chord s)
                                 (filterBindings s bindings)).
  { unfold handleKeyPress.
    destruct (JS.truthy chord); cbn [negb].
    - unfold filterBindings at 1 2. unfold currentSequenceStr.
      cbn [currentChordSequence].
      rewrite length_app. cbn [List.length].
      replace (List.length (currentChordSequence s) + 1 =? 0) with false
        by (symmetry; apply Nat.eqb_neq; lia).
      unfold filterBindings, currentSequenceStr.
      destruct (currentChordSequence s) as [|c cs] eqn:Hseq;
        [reflexivity|].
      cbn [List.length Nat.eqb].
      symmetry. apply filter_filter_implied. intros b.
      rewrite map_app.
      change (map replaceOpt [chord]) with [replaceOpt chord].
      rewrite join_snoc by discriminate.
      rewrite !toLowerCase_append.
      set (S := JS.toLowerCase (JS.join " " (map replaceOpt (c :: cs)))).
      set (next := JS.toLowerCase (replaceOpt chord)).
      generalize (JS.toLowerCase (ParsedKeybinding.key b)) as k. intros k.
      change (JS.toLowerCase " ") with " ".
      intros Hkeep.
      assert (Hstart : JS.startsWith (S ++ " ") k = true).
      { destruct (String.eqb_spec k (S ++ " " ++ next)) as [Hk|_].
        - rewrite Hk, <- string_append_assoc. apply startsWith_append.
        - destruct (JS.startsWith ((S ++ " " ++ next) ++ " ") k) eqn:E;
            [|discriminate].
          apply startsWith_iff in E. destruct E as [rest ->].
          rewrite <- (string_append_assoc S), !string_append_assoc.
          rewrite <- (string_append_assoc S " ").
          apply startsWith_append. }
      rewrite Hstart. now destruct (String.eqb k S).
    - unfold filterBindings.
      destruct (List.length (currentChordSequence s) =? 0); [reflexivity|].
      symmetry. now apply filter_filter_implied. }
  split; [exact Heq|].
  rewrite Heq. intros b Hin.
  unfold filterBindings in Hin at 1.
  destruct (List.length (currentChordSequence (handleKeyPress chord s)) =? 0);
    [exact Hin|].
  apply filter_In in Hin. tauto.
Qed.

(** ** Chord tokens of a key sequence *)

Lemma splitSpacesFrom_tokens_without_space (s : string) :
  forall afterSpace,
    Forall (fun t => containsSpace t = false)
           (JS.splitSpacesFrom afterSpace s).
Proof.
  induction s as [|c s IH]; intros afterSpace; simpl.
  - now repeat constructor.
  - destruct (JS.isSpace c) eqn:E.
    + destruct afterSpace; [apply IH|].
      constructor; [reflexivity | apply IH].
    + specialize (IH false).
      destruct (JS.splitSpacesFrom false s) as [|p ps].
      * constructor; [simpl; now rewrite E | constructor].
      * inversion IH; subst.
        constructor; [simpl; now rewrite E | assumption].
Qed.

Lemma trimEnd_cons_fixed (c : ascii) (s : string) :
  JS.trimEnd (String c s) = String c s ->
  (s = EmptyString /\ JS.isSpace c = false)
  \/ (s <> EmptyString /\ JS.trimEnd s = s).
Proof.
  simpl. destruct (JS.trimEnd s) as [|d t] eqn:E.
  - destruct (JS.isSpace c); [discriminate|].
    intros [= <-]. now left.
  - intros [= <-]. right. split; [discriminate | reflexivity].
Qed.

Lemma trimEnd_idempotent (s : string) :
  JS.trimEnd (JS.trimEnd s) = JS.trimEnd s.
Proof.
  induction s as [|c s IH]; simpl; [reflexivity|].
  destruct (JS.trimEnd s) as [|d t] eqn:E.
  - destruct (JS.isSpace c) eqn:Hc; simpl; [reflexivity | now rewrite Hc].
  - change (JS.trimEnd (String c (String d t)))
      with (match JS.trimEnd (String d t) with
            | EmptyString =>
                if JS.isSpace c then EmptyString else String c EmptyString
            | String _ _ as t' => String c t'
            end).
    now rewrite IH.
Qed.

Lemma trimStart_head (s : string) :
  JS.trimStart s = EmptyString
  \/ exists c r, JS.trimStart s = String c r /\ JS.isSpace c = false.
Proof.
  induction s as [|c s IH]; simpl; [now left|].
  destruct (JS.isSpace c) eqn:E; [exact IH|].
  right. now exists c, s.
Qed.

Lemma trimEnd_head (c : ascii) (r : string) :
  JS.isSpace c = false -> exists r', JS.trimEnd (String c r) = String c r'.
Proof.
  intros Hc. simpl. destruct (JS.trimEnd r).
  - rewrite Hc. now eexists.
  - now eexists.
Qed.

(** A trimmed string that is not empty begins with a character that is
    not white space and is left alone by [trimEnd]. *)
Lemma trim_shape (s : string) :
  JS.trim s <> EmptyString ->
  exists c r,
    JS.trim s = String c r /\ JS.isSpace c = false
    /\ JS.trimEnd (String c r) = String c r.
Proof.
  unfold JS.trim. intros Hne.
  destruct (trimStart_head s) as [H | (c & r & H & Hc)].
  - rewrite H in Hne. now contradiction Hne.
  - rewrite H in *. destruct (trimEnd_head c r Hc) as [r' Hr'].
    exists c, r'. rewrite Hr'. repeat split; [assumption|].
    rewrite <- Hr'. apply trimEnd_idempotent.
Qed.

Lemma tokens_nonempty (s : string) :
  s <> EmptyString ->
  JS.trimEnd s = s ->
  Forall (fun t => t <> EmptyString) (JS.splitSpacesFrom true s)
  /\ Forall (fun t => t <> EmptyString) (tl (JS.splitSpacesFrom false s)).
Proof.
  induction s as [|c s IH]; intros Hne Hfix; [now contradiction Hne|].
  apply trimEnd_cons_fixed in Hfix.
  simpl. destruct (JS.isSpace c) eqn:Hc.
  - destruct Hfix as [[_ H] | [Hs Hfix]]; [discriminate|].
    destruct (IH Hs Hfix) as [Htrue _]. split; exact Htrue.
  - assert (Htl : Forall (fun t => t <> EmptyString)
                         (tl (JS.splitSpacesFrom false s))).
    { destruct Hfix as [[-> _] | [Hs Hfix]]; [constructor|].
      now destruct (IH Hs Hfix). }
    destruct (JS.splitSpacesFrom false s) as [|p ps];
      simpl in *; split; try constructor; try discriminate; assumption.
Qed.

(** The chord tokens of a key sequence that is not blank: there is at
    least one, none is empty, none contains white space. *)
Lemma key_tokens (keySequence : string) :
  JS.trim keySequence <> EmptyString ->
  JS.splitSpaces (JS.trim keySequence) <> []
  /\ Forall (fun t => t <> EmptyString /\ containsSpace t = false)
            (JS.splitSpaces (JS.trim keySequence)).
Proof.
  intros Hne. unfold JS.splitSpaces.
  split; [apply splitSpacesFrom_not_nil|].
  apply Forall_and; [|apply splitSpacesFrom_tokens_without_space].
  destruct (trim_shape keySequence Hne) as (c & r & -> & Hc & Hfix).
  destruct (tokens_nonempty (String c r) ltac:(discriminate) Hfix)
    as [Htrue _].
  simpl in *. now rewrite Hc in *.
Qed.

Lemma splitSpacesFrom_token_space (tok rest : string) :
  containsSpace tok = false ->
  JS.splitSpacesFrom false (tok ++ String " " rest)
  = tok :: JS.splitSpacesFrom true rest.
Proof.
  induction tok as [|c tok IH]; intros Hws.
  - reflexivity.
  - simpl in Hws. apply orb_false_iff in Hws. destruct Hws as [Hc Htok].
    cbn [String.append JS.splitSpacesFrom]. rewrite Hc, (IH Htok).
    reflexivity.
Qed.

Lemma splitSpacesFrom_single_token (tok : string) :
  containsSpace tok = false -> JS.splitSpacesFrom false tok = [tok].
Proof.
  induction tok as [|c tok IH]; intros Hws; [reflexivity|].
  simpl in Hws. apply orb_false_iff in Hws. destruct Hws as [Hc Htok].
  cbn [JS.splitSpacesFrom]. now rewrite Hc, (IH Htok).
Qed.

Lemma trimEnd_token (tok : string) :
  containsSpace tok = false -> JS.trimEnd tok = tok.
Proof.
  induction tok as [|c tok IH]; intros Hws; [reflexivity|].
  simpl in Hws. apply orb_false_iff in Hws. destruct Hws as [Hc Htok].
  simpl. rewrite (IH Htok), Hc. now destruct tok.
Qed.

Lemma trimEnd_append (a b : string) :
  b <> EmptyString -> JS.trimEnd b = b ->
  JS.trimEnd (a ++ b) = (a ++ b)%string.
Proof.
  intros Hne Hfix.
  induction a as [|c a IH]; [exact Hfix|].
  cbn [String.append JS.trimEnd]. rewrite IH.
  destruct (a ++ b)%string eqn:E; [|reflexivity].
  destruct a; simpl in E; [now contradiction Hne | discriminate].
Qed.

(** Joining chord tokens with a space and splitting the result, as
    [parseKeySequence] does, gives the tokens back. *)
Lemma splitSpaces_trim_join (tokens : list string) :
  tokens <> [] ->
  Forall (fun t => t <> EmptyString /\ containsSpace t = false) tokens ->
  JS.splitSpaces (JS.trim (JS.join " " tokens)) = tokens.
Proof.
  intros Hne Hall.
  assert (H : exists c r,
             JS.join " " tokens = String c r /\ JS.isSpace c = false
             /\ JS.trimEnd (JS.join " " tokens) = JS.join " " tokens
             /\ JS.splitSpacesFrom false (JS.join " " tokens) = tokens).
  { induction tokens as [|x l IH]; [now contradiction Hne|].
    inversion Hall as [|? ? [Hx Hws] Hl]; subst.
    destruct x as [|c x]; [now contradiction Hx|].
    pose proof Hws as Hws'. simpl in Hws'.
    apply orb_false_iff in Hws'. destruct Hws' as [Hc _].
    destruct l as [|y l'].
    - exists c, x. repeat split; try assumption.
      + now apply trimEnd_token.
      + now apply splitSpacesFrom_single_token.
    - destruct (IH ltac:(discriminate) Hl) as (d & r & Hj & Hd & Hfix & Hsplit).
      change (JS.join " " (String c x :: y :: l'))
        with (String c x ++ String " " (JS.join " " (y :: l')))%string.
      exists c, (x ++ String " " (JS.join " " (y :: l')))%string.
      repeat split; try assumption.
      + apply trimEnd_append; [discriminate|].
        change (String " " (JS.join " " (y :: l')))
          with (" " ++ JS.join " " (y :: l'))%string.
        apply trimEnd_append; [rewrite Hj; discriminate | exact Hfix].
      + rewrite (splitSpacesFrom_token_space _ _ Hws). f_equal.
        rewrite <- Hsplit at 2. rewrite Hj. simpl. now rewrite Hd. }
  destruct H as (c & r & Hj & Hc & Hfix & Hsplit).
  unfold JS.splitSpaces, JS.trim.
  replace (JS.trimStart (JS.join " " tokens)) with (JS.join " " tokens)
    by (rewrite Hj; simpl; now rewrite Hc).
  now rewrite Hfix.
Qed.

(** X18.  When the live sequence is the chord tokens of the key of a
    binding of the list the tree was built from, [getNextPossibleKeys]
    reports that sequence as a complete binding: "(completes)" is among
    the next keys. *)
Theorem getNextPossibleKeys_completes :
  forall (bindings : list ParsedKeybinding.t) (b : ParsedKeybinding.t)
         (s : LiveChordTracker.t),
    In b bindings ->
    JS.trim (ParsedKeybinding.key b) <> EmptyString ->
    currentChordSequence s
    = JS.splitSpaces (JS.trim (ParsedKeybinding.key b)) ->
    In "(completes)" (getNextPossibleKeys s (buildPrefixTree bindings)).
Proof.
  intros bindings b s Hin Htrim Hseq.
  destruct (key_tokens _ Htrim) as [Hne Hall].
  assert (Hkey : ParsedKeybinding.key b <> EmptyString).
  { intros H. rewrite H in Htrim. now contradiction Htrim. }
  destruct (heldAt_buildPrefixTree bindings b Hin Hkey) as (n & Hn & Hb).
  unfold getNextPossibleKeys. rewrite Hseq.
  destruct (JS.splitSpaces (JS.trim (ParsedKeybinding.key b)))
    as [|tok toks] eqn:Htoks; [now contradiction Hne|].
  cbn [List.length Nat.eqb].
  rewrite findNode_lookupPath, canonicalSequence_tokens.
  rewrite (splitSpaces_trim_join (tok :: toks) Hne Hall).
  rewrite <- Htoks, <- canonicalSequence_tokens, Hn.
  destruct (PrefixNode.bindings n) as [|x xs]; [now contradiction Hb|].
  cbn [List.length Nat.ltb Nat.leb]. apply in_or_app. right. now left.
Qed.

Lemma getNextPossibleKeys_completes_witness :
  let x :=
    ParsedKeybinding.mk "  cmd+k   cmd+s " "x" None false "VS Code" None
      (Some "Other") true (Some []) in
  let s := keyEvents ["cmd+k"; "cmd+s"] (activate create) in
  In "(completes)" (getNextPossibleKeys s (buildPrefixTree [x])).
Proof.
  intros x s.
  apply (getNextPossibleKeys_completes [x] x s).
  - now left.
  - discriminate.
  - reflexivity.
Defined.

(** ** The parser, the index and the tree together *)

Lemma filter_ext_Forall {A : Type} (f g : A -> bool) (l : list A) :
  Forall (fun x => f x = g x) l -> filter f l = filter g l.
Proof.
  induction 1 as [|x l Hx _ IH]; simpl; [reflexivity|].
  now rewrite Hx, IH.
Qed.

(** X19.  The parser and the tree agree on what a multi-chord binding
    is.  For the bindings parsed from a file, the bindings that
    [filterMultiChord] returns are as many as [multiChordCount] of the
    tree built from them, those that [filterSingleChord] returns as many
    as [singleChordCount], and every binding is in one of the two
    views. *)
Theorem multi_chord_views_match_tree :
  forall (rawBindings : list RawBinding) (sourceEditor : string),
    let parsed := parseKeybindingsFile_loop rawBindings sourceEditor in
    let index := SearchIndex.buildIndex SearchIndex.create parsed in
    let stats := getTreeStats (buildPrefixTree parsed) in
    List.length (SearchIndex.filterMultiChord index) = multiChordCount stats
    /\ List.length (SearchIndex.filterSingleChord index)
       = singleChordCount stats
    /\ List.length (SearchIndex.filterMultiChord index)
       + List.length (SearchIndex.filterSingleChord index)
       = List.length parsed.
Proof.
  intros rawBindings sourceEditor parsed index stats.
  destruct (buildPrefixTree_stats parsed) as (Hsingle & Hmulti & _).
  pose proof (parsed_bindings_fields rawBindings sourceEditor) as Hfields.
  fold parsed in Hfields.
  unfold SearchIndex.filterMultiChord, SearchIndex.filterSingleChord.
  subst index stats. cbn [SearchIndex.buildIndex SearchIndex.bindings].
  assert (Hm : filter (fun b => ParsedKeybinding.isMultiChord b) parsed
               = filter (fun b => hasKey b && (1 <? chordCount b)) parsed).
  { apply filter_ext_Forall. eapply Forall_impl; [|exact Hfields].
    intros b (Hkey & _ & Hflag). unfold hasKey, chordCount.
    apply truthy_iff in Hkey. now rewrite Hkey, Hflag. }
  assert (Hs : filter (fun b => negb (ParsedKeybinding.isMultiChord b)) parsed
               = filter (fun b => hasKey b && (chordCount b =? 1)) parsed).
  { apply filter_ext_Forall. eapply Forall_impl; [|exact Hfields].
    intros b (Hkey & _ & Hflag). unfold hasKey.
    apply truthy_iff in Hkey. rewrite Hkey, Hflag. cbn [andb].
    fold (chordCount b). pose proof (chordCount_pos b).
    destruct (1 <? chordCount b) eqn:E1, (chordCount b =? 1) eqn:E2;
      try reflexivity.
    - apply Nat.ltb_lt in E1. apply Nat.eqb_eq in E2. lia.
    - apply Nat.ltb_ge in E1. apply Nat.eqb_neq in E2. lia. }
  split; [now rewrite Hm, Hmulti|]. split; [now rewrite Hs, Hsingle|].
  clear. induction parsed as [|b l IH]; simpl; [reflexivity|].
  destruct (ParsedKeybinding.isMultiChord b); simpl; lia.
Qed.

Lemma filter_comm {A : Type} (p q : A -> bool) (l : list A) :
  filter p (filter q l) = filter q (filter p l).
Proof.
  induction l as [|x l IH]; simpl; [reflexivity|].
  destruct (p x) eqn:Hp, (q x) eqn:Hq; simpl; rewrite ?Hp, ?Hq, IH;
    reflexivity.
Qed.

(** X20.  What the tree view shows.  The two filters of
    [applyFiltersAndLiveMode] can be taken in either order: the bindings
    shown are the settings filter applied to the live filter of all the
    bindings, too.  The tree shown holds, up to order, the bindings shown
    that have a non-empty key. *)
Theorem applyFiltersAndLiveMode_shows :
  forall (showDisabledBindings : bool) (liveTracker : LiveChordTracker.t)
         (allBindings : list ParsedKeybinding.t),
    let shown :=
      ChordMapTreeDataProvider.applyFiltersAndLiveMode
        showDisabledBindings liveTracker allBindings in
    fst shown
    = SettingsManager.applyFilters showDisabledBindings
        (if isLiveMode liveTracker
         then filterBindings liveTracker allBindings
         else allBindings)
    /\ Permutation (flattenTree (snd shown)) (filter hasKey (fst shown)).
Proof.
  intros showDisabledBindings liveTracker allBindings shown.
  split.
  - subst shown. unfold ChordMapTreeDataProvider.applyFiltersAndLiveMode.
    cbn [fst]. unfold SettingsManager.applyFilters.
    destruct (isLiveMode liveTracker); [|reflexivity].
    destruct (negb showDisabledBindings); [|reflexivity].
    unfold filterBindings.
    destruct (List.length (currentChordSequence liveTracker) =? 0);
      [reflexivity | apply filter_comm].
  - subst shown. unfold ChordMapTreeDataProvider.applyFiltersAndLiveMode.
    cbn [fst snd]. rewrite flattenTree_spec. unfold buildPrefixTree.
    rewrite bindingsIn_fold_addBinding. reflexivity.
Qed.

(** ** Lookups in a built tree *)

Lemma treeGrows_fold (more : list ParsedKeybinding.t) :
  forall roots, treeGrows roots (fold_left addBinding more roots).
Proof.
  induction more as [|b more IH]; intros roots keys found Hfound.
  - exists found. split; [exact Hfound | apply nodeKept_refl].
  - cbn [fold_left].
    destruct (treeGrows_addBinding roots b keys found Hfound)
      as (found1 & H1 & Hkept1).
    destruct (IH _ keys found1 H1) as (found2 & H2 & Hkept2).
    exists found2. split; [exact H2 | exact (nodeKept_trans _ _ _ Hkept1 Hkept2)].
Qed.

(** X21.  Bindings added at the end of the list never disturb what is
    already in the tree: a node that [findNode] finds in the tree built
    from a list is found, for the same key sequence, in the tree built
    from any longer list, with the same chord, the same [fullPath] and
    at least the same bindings. *)
Theorem buildPrefixTree_keeps_nodes :
  forall (bindings more : list ParsedKeybinding.t) (keySequence : string)
         (n : PrefixNode.t),
    findNode (buildPrefixTree bindings) keySequence = Some n ->
    exists n',
      findNode (buildPrefixTree (bindings ++ more)) keySequence = Some n'
      /\ PrefixNode.chord n' = PrefixNode.chord n
      /\ PrefixNode.fullPath n' = PrefixNode.fullPath n
      /\ incl (PrefixNode.bindings n) (PrefixNode.bindings n').
Proof.
  intros bindings more keySequence n Hfind.
  rewrite findNode_lookupPath in Hfind.
  unfold buildPrefixTree. rewrite fold_left_app.
  destruct (treeGrows_fold more _ _ _ Hfind) as (n' & Hn' & Hkept).
  exists n'. rewrite findNode_lookupPath. split; [exact Hn' | exact Hkept].
Qed.

Lemma buildPrefixTree_keeps_nodes_witness :
  let first :=
    ParsedKeybinding.mk "Cmd+K" "first" None false "VS Code" None
      (Some "Other") false (Some []) in
  let second :=
    ParsedKeybinding.mk "cmd+k" "second" None false "VS Code" None
      (Some "Other") false (Some []) in
  exists n',
    findNode (buildPrefixTree ([first] ++ [second])) "cmd+k" = Some n'
    /\ PrefixNode.chord n' = "Cmd+K"
    /\ PrefixNode.fullPath n' = ["Cmd+K"]
    /\ incl [first] (PrefixNode.bindings n').
Proof.
  intros first second.
  exact (buildPrefixTree_keeps_nodes [first] [second] "cmd+k"
           (PrefixNode.mk "Cmd+K" [] [first] ["Cmd+K"]) eq_refl).
Defined.

Lemma lookupBelow_fresh (keys : list string) (chord : string)
      (fullPath : list string) (found : PrefixNode.t) :
  lookupBelow keys (createNode chord fullPath) = Some found -> keys = [].
Proof. destruct keys; [reflexivity | discriminate]. Qed.

(** Where a path into a node that [descend] returns comes from: it was
    a path into the node before, or it runs along the chords walked. *)
Lemma lookupBelow_descend_origin (binding : ParsedKeybinding.t)
      (chords : list KeyChord.t) :
  forall fullPath currentNode keys found,
    lookupBelow keys (descend chords fullPath binding currentNode)
    = Some found ->
    (exists before, lookupBelow keys currentNode = Some before)
    \/ exists tail,
         map (fun chord => normalizeChordKey (KeyChord.raw chord)) chords
         = keys ++ tail.
Proof.
  induction chords as [|chord rest IH];
    intros fullPath currentNode keys found Hfound.
  - left. destruct keys as [|k ks]; [now eexists|].
    exists found. exact Hfound.
  - destruct keys as [|k ks]; [left; now eexists|].
    cbn [descend] in Hfound. unfold withChildren in Hfound.
    cbn [lookupBelow PrefixNode.children map] in *.
    destruct (String.eqb_spec k (normalizeChordKey (KeyChord.raw chord)))
      as [->|Hne].
    + rewrite get_set_same in Hfound.
      destruct (JSMap.get _ (PrefixNode.children currentNode)) as [child|].
      * destruct (IH _ _ _ _ Hfound) as [Hbefore | [tail Htail]].
        -- now left.
        -- right. exists tail. now rewrite Htail.
      * destruct (IH _ _ _ _ Hfound) as [[before Hbefore] | [tail Htail]].
        -- apply lookupBelow_fresh in Hbefore. subst ks.
           right. now eexists.
        -- right. exists tail. now rewrite Htail.
    + rewrite (get_set_other _ _ _ _ Hne) in Hfound.
      left. exists found. exact Hfound.
Qed.

Lemma lookupPath_addBinding_origin (roots : JSMap.t PrefixNode.t)
      (binding : ParsedKeybinding.t) (keys : list string)
      (found : PrefixNode.t) :
  lookupPath keys (addBinding roots binding) = Some found ->
  (exists before, lookupPath keys roots = Some before)
  \/ (hasKey binding = true
      /\ exists tail,
           canonicalSequence (ParsedKeybinding.key binding) = keys ++ tail).
Proof.
  unfold addBinding, hasKey, canonicalSequence.
  destruct (JS.truthy (ParsedKeybinding.key binding)); cbn [negb];
    [|intros H; left; exists found; exact H].
  destruct (parseKeySequence (ParsedKeybinding.key binding))
    as [|chord0 rest]; [intros H; left; exists found; exact H|].
  intros Hfound.
  destruct keys as [|k ks]; [discriminate|].
  cbn [lookupPath map] in *.
  destruct (String.eqb_spec k (normalizeChordKey (KeyChord.raw chord0)))
    as [->|Hne].
  - rewrite get_set_same in Hfound.
    destruct (JSMap.get _ roots) as [root|].
    + destruct (lookupBelow_descend_origin _ _ _ _ _ _ Hfound)
        as [Hbefore | [tail Htail]].
      * now left.
      * right. split; [reflexivity|]. exists tail. now rewrite Htail.
    + destruct (lookupBelow_descend_origin _ _ _ _ _ _ Hfound)
        as [[before Hbefore] | [tail Htail]].
      * apply lookupBelow_fresh in Hbefore. subst ks.
        right. split; [reflexivity | now eexists].
      * right. split; [reflexivity|]. exists tail. now rewrite Htail.
  - rewrite (get_set_other _ _ _ _ Hne) in Hfound.
    left. exists found. exact Hfound.
Qed.

Lemma lookupPath_fold_origin (bindings : list ParsedKeybinding.t)
      (keys : list string) :
  forall roots found,
    lookupPath keys (fold_left addBinding bindings roots) = Some found ->
    (exists before, lookupPath keys roots = Some before)
    \/ exists b tail,
         In b bindings /\ hasKey b = true
         /\ canonicalSequence (ParsedKeybinding.key b) = keys ++ tail.
Proof.
  induction bindings as [|x bs IH]; intros roots found Hfound.
  - left. now exists found.
  - cbn [fold_left] in Hfound.
    destruct (IH _ _ Hfound) as [[before Hbefore] | (b & tail & Hin & Hb)].
    + destruct (lookupPath_addBinding_origin _ _ _ _ Hbefore)
        as [Hroots | [Hkey [tail Htail]]].
      * now left.
      * right. exists x, tail. repeat split; [now left | assumption..].
    + right. exists b, tail. split; [now right | exact Hb].
Qed.

Lemma lookupBelow_prefix (keys tail : list string) :
  forall n found,
    lookupBelow (keys ++ tail) n = Some found ->
    exists at_keys, lookupBelow keys n = Some at_keys.
Proof.
  induction keys as [|k ks IH]; intros n found Hfound; [now eexists|].
  cbn [app lookupBelow] in *.
  destruct (JSMap.get k (PrefixNode.children n)); [|discriminate].
  exact (IH _ _ Hfound).
Qed.

Lemma canonicalSequence_not_nil (keySequence : string) :
  canonicalSequence keySequence <> [].
Proof.
  unfold canonicalSequence.
  pose proof (parseKeySequence_not_nil keySequence) as H.
  destruct (parseKeySequence keySequence); [now contradiction H | discriminate].
Qed.

(** X22.  What [findNode] finds in a built tree, and what it does not:
    it returns a node for a key sequence exactly when the canonical chord
    sequence of some binding of the list with a non-empty key begins with
    the canonical chord sequence of the key sequence. *)
Theorem findNode_found_iff :
  forall (bindings : list ParsedKeybinding.t) (keySequence : string),
    (exists n, findNode (buildPrefixTree bindings) keySequence = Some n)
    <-> exists b tail,
          In b bindings
          /\ ParsedKeybinding.key b <> EmptyString
          /\ canonicalSequence (ParsedKeybinding.key b)
             = canonicalSequence keySequence ++ tail.
Proof.
  intros bindings keySequence. rewrite findNode_lookupPath. split.
  - intros [n Hn]. unfold buildPrefixTree in Hn.
    destruct (lookupPath_fold_origin _ _ _ _ Hn)
      as [[before Hbefore] | (b & tail & Hin & Hkey & Hcanon)].
    + destruct (canonicalSequence keySequence); discriminate.
    + exists b, tail. repeat split; try assumption. now apply truthy_iff.
  - intros (b & tail & Hin & Hkey & Hcanon).
    destruct (heldAt_buildPrefixTree bindings b Hin Hkey) as (n & Hn & _).
    rewrite Hcanon in Hn.
    pose proof (canonicalSequence_not_nil keySequence) as Hne.
    destruct (canonicalSequence keySequence) as [|k ks];
      [now contradiction Hne|].
    cbn [app lookupPath] in *.
    destruct (JSMap.get k (buildPrefixTree bindings)); [|discriminate].
    exact (lookupBelow_prefix _ _ _ _ Hn).
Qed.

(** ** The tracker outside live mode *)

(** X23.  The automatic reset works in live mode only.  On a tracker
    that is not active, key presses reported by the webview are still
    appended to the sequence, and a timeout that fires afterwards leaves
    the sequence as it is. *)
Theorem inactive_tracker_keeps_sequence :
  forall (s : LiveChordTracker.t) (chords : list string) (h : nat),
    isLiveMode s = false ->
    Forall (fun chord => chord <> EmptyString) chords ->
    getCurrentSequence (timerFires h (keyEvents chords s))
    = getCurrentSequence s ++ chords
    /\ isLiveMode (timerFires h (keyEvents chords s)) = false.
Proof.
  intros s chords h Hinactive Hchords.
  destruct (keyEvents_spec chords s Hchords) as (Hseq & Hact & _).
  unfold isLiveMode, getCurrentSequence in *. rewrite Hinactive in Hact.
  unfold timerFires, resetSequence.
  destruct (existsb (Nat.eqb h) (pendingTimers (keyEvents chords s)));
    cbn [isActive]; rewrite Hact; cbn [negb currentChordSequence isActive];
    now rewrite ?Hact.
Qed.

Lemma inactive_tracker_keeps_sequence_witness :
  getCurrentSequence
    (timerFires 0 (keyEvents ["cmd+k"] (toggle (toggle create))))
  = ["cmd+k"].
Proof.
  assert (Hchords : Forall (fun chord => chord <> EmptyString) ["cmd+k"])
    by (repeat constructor; discriminate).
  exact (proj1 (inactive_tracker_keeps_sequence
                  (toggle (toggle create)) ["cmd+k"] 0 eq_refl Hchords)).
Defined.
